(** * CPT-Snippets: filter weights and the masked periodic Laplacian

    A shallow embedding of the two notebooks of the repository,
    [LaplacianHack.ipynb] (function [Laplacian2D]) and
    [FilterWeights.ipynb] (the interpolant [F] and function [getWeights]).

    Numbers are real numbers: the development speaks about the arithmetic
    the notebooks intend, not about IEEE rounding.  numpy's [inf]/[nan]
    (a zero entry of [dx], overflow) have no counterpart here: the results
    about the values [Laplacian2D] computes assume that no entry of [dx] is
    zero.

    numpy arrays are a shape together with a look-up function; every numpy
    operation the notebooks use is written out with the shape checks numpy
    performs (broadcasting, slice clamping, index errors), so that a call
    with ill-shaped arguments fails in the model where it fails in numpy. *)

From Stdlib Require Import Reals List ZArith Lia Lra Bool Arith.
From Stdlib Require Import ClassicalEpsilon.
Import ListNotations.

Open Scope R_scope.

(** ** Python exceptions and the error monad *)

Inductive exn : Type :=
| ValueError
| IndexError
| ZeroDivisionError
| LinAlgError.

Inductive result (A : Type) : Type :=
| Ok (a : A)
| Raise (e : exn).

Arguments Ok {A} a.
Arguments Raise {A} e.

Definition bind {A B : Type} (m : result A) (k : A -> result B) : result B :=
  match m with
  | Ok a => k a
  | Raise e => Raise e
  end.

Notation "x <- m ;; k" := (bind m (fun x => k))
  (at level 61, m at next level, right associativity).

Definition is_ok {A : Type} (m : result A) : Prop := exists a, m = Ok a.

(** Python's scalar division [a / b]. *)
Definition py_div (a b : R) : result R :=
  if Req_dec_T b 0 then Raise ZeroDivisionError else Ok (a / b).

(** ** numpy arrays *)

Module Np.

(** A one-dimensional array of shape [(len,)]. *)
Record arr1 : Type := mk1 { len : nat; at1 : nat -> R }.

(** A two-dimensional array of shape [(dim0, dim1)]. *)
Record arr2 : Type := mk2 { dim0 : nat; dim1 : nat; at2 : nat -> nat -> R }.

(** [np.array([...])] and [np.array([[...], ...])]. *)
Definition of_list (l : list R) : arr1 :=
  mk1 (length l) (fun i => nth i l 0).

Definition of_rows (n m : nat) (rows : list (list R)) : arr2 :=
  mk2 n m (fun i j => nth j (nth i rows []) 0).

(** [np.zeros(n)], [np.zeros((n, m))] and [np.eye(n)]. *)
Definition zeros1 (n : nat) : arr1 := mk1 n (fun _ => 0).
Definition zeros (n m : nat) : arr2 := mk2 n m (fun _ _ => 0).
Definition eye (n : nat) : arr2 :=
  mk2 n n (fun i j => if Nat.eqb i j then 1 else 0).

(** *** Indices and slices

    An integer index [k] on an axis of length [n]: a negative index counts
    from the end, an index outside [-n, n) raises [IndexError]. *)
Definition norm_index (n : nat) (k : Z) : result nat :=
  let k' := if (k <? 0)%Z then (k + Z.of_nat n)%Z else k in
  if ((0 <=? k') && (k' <? Z.of_nat n))%Z then Ok (Z.to_nat k')
  else Raise IndexError.

(** A slice bound [k] on an axis of length [n] is clamped, never an error. *)
Definition clamp (n : nat) (k : Z) : nat :=
  let k' := if (k <? 0)%Z then (k + Z.of_nat n)%Z else k in
  Z.to_nat (Z.max 0 (Z.min k' (Z.of_nat n))).

(** *** Broadcasting *)

(** The common length of two axes, when they are compatible. *)
Definition bdim (a b : nat) : result nat :=
  if Nat.eqb a b then Ok a
  else if Nat.eqb a 1 then Ok b
  else if Nat.eqb b 1 then Ok a
  else Raise ValueError.

(** The index read on an axis of length [d] stretched to length [r]. *)
Definition bidx (d r i : nat) : nat := if Nat.eqb d r then i else 0%nat.

(** An axis of length [v] can be stored into an axis of length [t]. *)
Definition fits (v t : nat) : bool := Nat.eqb v t || Nat.eqb v 1.

(** *** Element-wise operations *)

(** [c op a] and [a op c] for a scalar [c]. *)
Definition smap1 (f : R -> R) (a : arr1) : arr1 :=
  mk1 (len a) (fun i => f (at1 a i)).

Definition smap2 (f : R -> R) (a : arr2) : arr2 :=
  mk2 (dim0 a) (dim1 a) (fun i j => f (at2 a i j)).

(** [a op b] for two one-dimensional arrays. *)
Definition bop1 (f : R -> R -> R) (a b : arr1) : result arr1 :=
  n <- bdim (len a) (len b) ;;
  Ok (mk1 n (fun i => f (at1 a (bidx (len a) n i)) (at1 b (bidx (len b) n i)))).

(** [a op b] for two two-dimensional arrays. *)
Definition bop2 (f : R -> R -> R) (a b : arr2) : result arr2 :=
  n <- bdim (dim0 a) (dim0 b) ;;
  m <- bdim (dim1 a) (dim1 b) ;;
  Ok (mk2 n m (fun i j =>
        f (at2 a (bidx (dim0 a) n i) (bidx (dim1 a) m j))
          (at2 b (bidx (dim0 b) n i) (bidx (dim1 b) m j)))).

(** [a op b] for [a] of shape [(L,)] and [b] of shape [(n, m)]: [a] is read
    as an array of shape [(1, L)]. *)
Definition bop12 (f : R -> R -> R) (a : arr1) (b : arr2) : result arr2 :=
  bop2 f (mk2 1 (len a) (fun _ j => at1 a j)) b.

(** *** Reading *)

(** [a[:, lo:hi]] *)
Definition cols (a : arr2) (lo hi : Z) : arr2 :=
  let s := clamp (dim1 a) lo in
  mk2 (dim0 a) (clamp (dim1 a) hi - s) (fun i j => at2 a i (s + j)).

(** [a[lo:hi, :]] *)
Definition rows (a : arr2) (lo hi : Z) : arr2 :=
  let s := clamp (dim0 a) lo in
  mk2 (clamp (dim0 a) hi - s) (dim1 a) (fun i j => at2 a (s + i) j).

(** [a[:, k]] *)
Definition col (a : arr2) (k : Z) : result arr1 :=
  c <- norm_index (dim1 a) k ;;
  Ok (mk1 (dim0 a) (fun i => at2 a i c)).

(** [a[k, :]] *)
Definition row (a : arr2) (k : Z) : result arr1 :=
  r <- norm_index (dim0 a) k ;;
  Ok (mk1 (dim1 a) (fun j => at2 a r j)).

(** [a[lo:hi]] *)
Definition slice1 (a : arr1) (lo hi : Z) : arr1 :=
  let s := clamp (len a) lo in
  mk1 (clamp (len a) hi - s) (fun i => at1 a (s + i)).

(** *** Writing in place *)

(** [t[:, lo:hi] = v] *)
Definition set_cols (t : arr2) (lo hi : Z) (v : arr2) : result arr2 :=
  let s := clamp (dim1 t) lo in
  let w := (clamp (dim1 t) hi - s)%nat in
  if fits (dim0 v) (dim0 t) && fits (dim1 v) w then
    Ok (mk2 (dim0 t) (dim1 t) (fun i j =>
          if (s <=? j)%nat && (j <? s + w)%nat
          then at2 v (bidx (dim0 v) (dim0 t) i) (bidx (dim1 v) w (j - s))
          else at2 t i j))
  else Raise ValueError.

(** [t[lo:hi, :] = v] *)
Definition set_rows (t : arr2) (lo hi : Z) (v : arr2) : result arr2 :=
  let s := clamp (dim0 t) lo in
  let h := (clamp (dim0 t) hi - s)%nat in
  if fits (dim0 v) h && fits (dim1 v) (dim1 t) then
    Ok (mk2 (dim0 t) (dim1 t) (fun i j =>
          if (s <=? i)%nat && (i <? s + h)%nat
          then at2 v (bidx (dim0 v) h (i - s)) (bidx (dim1 v) (dim1 t) j)
          else at2 t i j))
  else Raise ValueError.

(** [t[:, k] = v] *)
Definition set_col (t : arr2) (k : Z) (v : arr1) : result arr2 :=
  c <- norm_index (dim1 t) k ;;
  if fits (len v) (dim0 t) then
    Ok (mk2 (dim0 t) (dim1 t) (fun i j =>
          if Nat.eqb j c then at1 v (bidx (len v) (dim0 t) i) else at2 t i j))
  else Raise ValueError.

(** [t[k, :] = v] *)
Definition set_row (t : arr2) (k : Z) (v : arr1) : result arr2 :=
  r <- norm_index (dim0 t) k ;;
  if fits (len v) (dim1 t) then
    Ok (mk2 (dim0 t) (dim1 t) (fun i j =>
          if Nat.eqb i r then at1 v (bidx (len v) (dim1 t) j) else at2 t i j))
  else Raise ValueError.

(** [t[k] = c] for a scalar [c]. *)
Definition set1 (t : arr1) (k : Z) (c : R) : result arr1 :=
  i <- norm_index (len t) k ;;
  Ok (mk1 (len t) (fun j => if Nat.eqb j i then c else at1 t j)).

(** [t[lo:hi] = v] *)
Definition set_slice1 (t : arr1) (lo hi : Z) (v : arr1) : result arr1 :=
  let s := clamp (len t) lo in
  let w := (clamp (len t) hi - s)%nat in
  if fits (len v) w then
    Ok (mk1 (len t) (fun j =>
          if (s <=? j)%nat && (j <? s + w)%nat
          then at1 v (bidx (len v) w (j - s))
          else at1 t j))
  else Raise ValueError.

(** *** Sums *)

(** The sum of [f 0 .. f (n-1)]. *)
Fixpoint sum_n (f : nat -> R) (n : nat) : R :=
  match n with
  | O => 0
  | S k => sum_n f k + f k
  end.

(** [np.sum(a)] *)
Definition sum1 (a : arr1) : R := sum_n (at1 a) (len a).

Definition sum2 (a : arr2) : R :=
  sum_n (fun i => sum_n (at2 a i) (dim1 a)) (dim0 a).

End Np.

Import Np.

(** ** LaplacianHack.ipynb *)

(** The array [OUT] accumulated by [Laplacian2D] before its [return]
    statement: the y-direction block, then the x-direction block.  [dy] is
    a Python number, as in the notebook's [dy = 1]. *)
Definition Laplacian2D_OUT (field landMask : arr2) (dx : arr1) (dy : R)
  : result arr2 :=
  let Nx := dim0 field in
  let Ny := dim1 field in
  let zNx := Z.of_nat Nx in
  let zNy := Z.of_nat Ny in
  let notLand := smap2 (fun m => 1 - m) landMask in
  (* y direction *)
  let fluxRight := zeros Nx Ny in
  d <- bop2 Rminus (cols field 1 zNy) (cols field 0 (zNy - 1)) ;;
  v <- bop2 Rmult (cols notLand 1 zNy) d ;;
  fluxRight <- set_cols fluxRight 0 (zNy - 1) v ;;
  n0 <- col notLand 0 ;;
  f0 <- col field 0 ;;
  f1 <- col field (zNy - 1) ;;
  d <- bop1 Rminus f0 f1 ;;
  v <- bop1 Rmult n0 d ;;
  fluxRight <- set_col fluxRight (zNy - 1) v ;;
  let fluxLeft := zeros Nx Ny in
  d <- bop2 Rminus (cols field 1 zNy) (cols field 0 (zNy - 1)) ;;
  v <- bop2 Rmult (cols notLand 0 (zNy - 1)) d ;;
  fluxLeft <- set_cols fluxLeft 1 zNy v ;;
  n1 <- col notLand (zNy - 1) ;;
  f0 <- col field 0 ;;
  f1 <- col field (zNy - 1) ;;
  d <- bop1 Rminus f0 f1 ;;
  v <- bop1 Rmult n1 d ;;
  fluxLeft <- set_col fluxLeft 0 v ;;
  c <- py_div 1 (dy ^ 2) ;;
  d <- bop2 Rminus fluxRight fluxLeft ;;
  let OUT := smap2 (fun r => c * r) d in
  (* x direction *)
  let fluxRight := smap2 (fun r => 0 * r) fluxRight in
  let fluxLeft := smap2 (fun r => 0 * r) fluxLeft in
  d <- bop2 Rminus (rows field 1 zNx) (rows field 0 (zNx - 1)) ;;
  v <- bop2 Rmult (rows notLand 1 zNx) d ;;
  fluxRight <- set_rows fluxRight 0 (zNx - 1) v ;;
  n0 <- row notLand 0 ;;
  f0 <- row field 0 ;;
  f1 <- row field (zNx - 1) ;;
  d <- bop1 Rminus f0 f1 ;;
  v <- bop1 Rmult n0 d ;;
  fluxRight <- set_row fluxRight (zNx - 1) v ;;
  d <- bop2 Rminus (rows field 1 zNx) (rows field 0 (zNx - 1)) ;;
  v <- bop2 Rmult (rows notLand 0 (zNx - 1)) d ;;
  fluxLeft <- set_rows fluxLeft 1 zNx v ;;
  n1 <- row notLand (zNx - 1) ;;
  f0 <- row field 0 ;;
  f1 <- row field (zNx - 1) ;;
  d <- bop1 Rminus f0 f1 ;;
  v <- bop1 Rmult n1 d ;;
  fluxLeft <- set_row fluxLeft 0 v ;;
  d <- bop2 Rminus fluxRight fluxLeft ;;
  v <- bop12 Rmult (smap1 (fun h => 1 / h ^ 2) dx) d ;;
  bop2 Rplus OUT v.

(** [Laplacian2D(field, landMask, dx, dy)]: the accumulated array times
    [landMask], as the [return] statement has it. *)
Definition Laplacian2D (field landMask : arr2) (dx : arr1) (dy : R)
  : result arr2 :=
  OUT <- Laplacian2D_OUT field landMask dx dy ;;
  bop2 Rmult OUT landMask.


(** ** FilterWeights.ipynb *)

(** *** [scipy.interpolate.PchipInterpolator]

    The library routine behind the notebook's [F], written out from its
    algorithm: slopes of the data, derivative estimates at the knots (zero
    where the slopes change sign or vanish, a weighted harmonic mean
    elsewhere, a shape-preserving three-point formula at the two ends), one
    cubic per interval in Hermite form, and evaluation in the interval that
    holds the argument (the end intervals also serve outside the knots). *)

Module Pchip.

(** [np.sign] *)
Definition sign (r : R) : R :=
  if Rlt_dec 0 r then 1 else if Rlt_dec r 0 then -1 else 0.

(** [l[1:] - l[:-1]] *)
Fixpoint diff (l : list R) : list R :=
  match l with
  | a :: ((b :: _) as t) => (b - a) :: diff t
  | _ => []
  end.

Fixpoint map2 (f : R -> R -> R) (a b : list R) : list R :=
  match a, b with
  | u :: a', v :: b' => f u v :: map2 f a' b'
  | _, _ => []
  end.

Fixpoint strictly_increasing (l : list R) : bool :=
  match l with
  | a :: ((b :: _) as t) =>
      if Rlt_dec a b then strictly_increasing t else false
  | _ => true
  end.

(** The one-sided estimate at an end knot. *)
Definition edge_case (h0 h1 m0 m1 : R) : R :=
  let d := ((2 * h0 + h1) * m0 - h0 * m1) / (h0 + h1) in
  if Req_dec_T (sign d) (sign m0) then
    if Req_dec_T (sign m0) (sign m1) then d
    else if Rlt_dec (3 * Rabs m0) (Rabs d) then 3 * m0 else d
  else 0.

(** The estimates at the interior knots. *)
Fixpoint interior (hk mk : list R) : list R :=
  match hk, mk with
  | h0 :: ((h1 :: _) as hk'), m0 :: ((m1 :: _) as mk') =>
      let w1 := 2 * h1 + h0 in
      let w2 := h1 + 2 * h0 in
      let whmean := (w1 / m0 + w2 / m1) / (w1 + w2) in
      (if Req_dec_T (sign m1) (sign m0) then
         if Req_dec_T m1 0 then 0
         else if Req_dec_T m0 0 then 0
         else 1 / whmean
       else 0) :: interior hk' mk'
  | _, _ => []
  end.

Definition find_derivatives (xs ys : list R) : list R :=
  let hk := diff xs in
  let mk := map2 Rdiv (diff ys) hk in
  match hk, mk with
  | [_], [m0] => [m0; m0]
  | h0 :: h1 :: _, m0 :: m1 :: _ =>
      let n := length hk in
      edge_case h0 h1 m0 m1
      :: interior hk mk
      ++ [edge_case (nth (n - 1) hk 0) (nth (n - 2) hk 0)
                    (nth (n - 1) mk 0) (nth (n - 2) mk 0)]
  | _, _ => []
  end.

(** One cubic [c0 (k - x0)^3 + c1 (k - x0)^2 + c2 (k - x0) + c3]. *)
Record piece : Type :=
  mk_piece { x0 : R; c0 : R; c1 : R; c2 : R; c3 : R }.

Definition poly (p : piece) (k : R) : R :=
  c0 p * (k - x0 p) ^ 3 + c1 p * (k - x0 p) ^ 2 + c2 p * (k - x0 p) + c3 p.

Fixpoint pieces (xs ys dk : list R) : list piece :=
  match xs, ys, dk with
  | xa :: ((xb :: _) as xs'), ya :: ((yb :: _) as ys'),
    da :: ((db :: _) as dk') =>
      let h := xb - xa in
      let slope := (yb - ya) / h in
      let t := (da + db - 2 * slope) / h in
      mk_piece xa (t / h) ((slope - da) / h - t) da ya :: pieces xs' ys' dk'
  | _, _, _ => []
  end.

(** The index of the interval that holds [k]; [inner] lists the knots
    strictly between the first and the last. *)
Fixpoint locate (inner : list R) (k : R) : nat :=
  match inner with
  | [] => 0%nat
  | b :: rest => if Rlt_dec k b then 0%nat else S (locate rest k)
  end.

Definition ppoly (ps : list piece) (inner : list R) (k : R) : R :=
  poly (nth (locate inner k) ps (mk_piece 0 0 0 0 0)) k.

Definition PchipInterpolator (xs ys : list R) : result (R -> R) :=
  if (length xs <? 2)%nat then Raise ValueError
  else if negb (length xs =? length ys)%nat then Raise ValueError
  else if negb (strictly_increasing xs) then Raise ValueError
  else Ok (ppoly (pieces xs ys (find_derivatives xs ys)) (removelast (tl xs))).

End Pchip.

(** *** The notebook's module-level names *)

Record globals : Type := mk_globals { g_x : R; g_F : R -> R }.

(** [x = ...; F = interpolate.PchipInterpolator(
      np.array([0, 1/x, np.pi/x, np.pi]), np.array([1, 1, 0, 0]))] *)
Definition bind_x_F (x : R) : result globals :=
  a <- py_div 1 x ;;
  b <- py_div PI x ;;
  F <- Pchip.PchipInterpolator [0; a; b; PI] [1; 1; 0; 0] ;;
  Ok (mk_globals x F).

(** *** [getWeights]

    [scipy.integrate.quad] and [np.linalg.solve] are library routines; the
    function is written over any pair of them. *)

(** [a[lo:]] and [t[lo:] = v] *)
Definition slice1_from (a : arr1) (lo : Z) : arr1 :=
  slice1 a lo (Z.of_nat (len a)).

Definition set_slice1_from (t : arr1) (lo : Z) (v : arr1) : result arr1 :=
  set_slice1 t lo (Z.of_nat (len t)) v.

(** [A = 2*np.pi*(np.eye(n) + 2)] *)
Definition weights_matrix (n : nat) : arr2 :=
  smap2 (fun a => 2 * PI * a) (smap2 (fun a => a + 2) (eye n)).

Section GetWeights.

Variable quad : (R -> R) -> R -> R -> R * R.
Variable linalg_solve : arr2 -> arr1 -> result arr1.

(** [lambda k: 2*(F(k)-1)*(np.cos((i+1)*k)-1)] *)
Definition integrand (F : R -> R) (i : nat) : R -> R :=
  fun k => 2 * (F k - 1) * (cos (INR (i + 1) * k) - 1).

(** The [for i in range(n)] loop. *)
Fixpoint fill (F : R -> R) (w : arr1) (range : list nat) : result arr1 :=
  match range with
  | [] => Ok w
  | i :: rest =>
      w <- set1 w (Z.of_nat i) (fst (quad (integrand F i) 0 PI)) ;;
      fill F w rest
  end.

(** [getWeights(n)]; [F] is read from the module-level names. *)
Definition getWeights (g : globals) (n : nat) : result arr1 :=
  let w := zeros1 (n + 1) in
  w <- fill (g_F g) w (seq 0 n) ;;
  let A := weights_matrix n in
  t <- linalg_solve A (slice1 w 0 (Z.of_nat n)) ;;
  w <- set_slice1_from w 1 t ;;
  w <- set1 w 0 (1 - 2 * sum1 (slice1_from w 1)) ;;
  Ok w.

(** The notebook's use of it: bind [x] and [F], then call [getWeights(n)]. *)
Definition designFilter (x : R) (n : nat) : result arr1 :=
  g <- bind_x_F x ;;
  getWeights g n.

End GetWeights.

(** ** The Laplacian as the specification words it *)

(** Arguments of matching shapes on a non-empty grid, with a usable [dy]. *)
Definition well_shaped (field landMask : arr2) (dx : arr1) (dy : R) : Prop :=
  dim0 landMask = dim0 field /\ dim1 landMask = dim1 field /\
  len dx = dim1 field /\
  (1 <= dim0 field)%nat /\ (1 <= dim1 field)%nat /\ dy <> 0.

(** The arguments for which numpy carries the call through: [dx] may also
    be broadcast (length 1) or stretch a one-column grid. *)
Definition accepted (field landMask : arr2) (dx : arr1) (dy : R) : Prop :=
  dim0 landMask = dim0 field /\ dim1 landMask = dim1 field /\
  (1 <= dim0 field)%nat /\ (1 <= dim1 field)%nat /\ dy <> 0 /\
  (len dx = dim1 field \/ len dx = 1%nat \/ dim1 field = 1%nat).

(** The part of [accepted] that concerns the shapes alone. *)
Definition shapes_accepted (field landMask : arr2) (dx : arr1) : Prop :=
  dim0 landMask = dim0 field /\ dim1 landMask = dim1 field /\
  (1 <= dim0 field)%nat /\ (1 <= dim1 field)%nat /\
  (len dx = dim1 field \/ len dx = 1%nat \/ dim1 field = 1%nat).

(** Periodic neighbours of [idx] on an axis of length [n]. *)
Definition wrap_next (n idx : nat) : nat := ((idx + 1) mod n)%nat.
Definition wrap_prev (n idx : nat) : nat := ((idx + n - 1) mod n)%nat.

(** [fluxRight[idx] = notLand[idx+1] * (field[idx+1] - field[idx])] and
    [fluxLeft[idx] = notLand[idx-1] * (field[idx] - field[idx-1])] along one
    axis, indices wrapping. *)
Definition spec_fluxRight (notLand f : nat -> R) (n idx : nat) : R :=
  notLand (wrap_next n idx) * (f (wrap_next n idx) - f idx).

Definition spec_fluxLeft (notLand f : nat -> R) (n idx : nat) : R :=
  notLand (wrap_prev n idx) * (f idx - f (wrap_prev n idx)).

(** The contribution of one axis: [(fluxRight - fluxLeft) / spacing^2]. *)
Definition axis_term (notLand f : nat -> R) (n idx : nat) (spacing : R) : R :=
  (spec_fluxRight notLand f n idx - spec_fluxLeft notLand f n idx)
  / spacing ^ 2.

(** The sum of the y-axis contribution (spacing [dy]) and of the x-axis
    contribution (spacing [dx[j]]) at cell [(i, j)]. *)
Definition flux_form (field landMask : arr2) (dx : arr1) (dy : R)
  (i j : nat) : R :=
  axis_term (fun b => 1 - at2 landMask i b) (at2 field i) (dim1 field) j dy
  + axis_term (fun a => 1 - at2 landMask a j) (fun a => at2 field a j)
      (dim0 field) i (at1 dx j).

(** Two arrays with the same shape and the same entries. *)
Definition same2 (a b : arr2) : Prop :=
  dim0 a = dim0 b /\ dim1 a = dim1 b /\
  forall i j, (i < dim0 a)%nat -> (j < dim1 a)%nat -> at2 a i j = at2 b i j.

(** *** Inputs of the worked 3 x 3 case *)

Definition spike : arr2 := of_rows 3 3 [[0; 0; 0]; [0; 1; 0]; [0; 0; 0]].
Definition no_land : arr2 := of_rows 3 3 [[0; 0; 0]; [0; 0; 0]; [0; 0; 0]].
Definition land_centre : arr2 := of_rows 3 3 [[0; 0; 0]; [0; 1; 0]; [0; 0; 0]].
Definition unit_dx : arr1 := of_list [1; 1; 1].

(** ** The filter designer as the specification words it *)

(** The transition of the target response: the cubic that falls from 1 to 0
    with zero slope at both ends. *)
Definition smooth (s : R) : R := 1 - 3 * s ^ 2 + 2 * s ^ 3.

(** The target response for coarsening ratio [x]: 1 up to [1/x], the
    transition up to [pi/x], 0 beyond. *)
Definition target (x k : R) : R :=
  if Rlt_dec k (1 / x) then 1
  else if Rlt_dec k (PI / x) then smooth ((k - 1 / x) / (PI / x - 1 / x))
  else 0.

(** The interpolant that [bind_x_F] stores in [F]. *)
Definition notebook_F (x : R) : R -> R :=
  Pchip.ppoly
    (Pchip.pieces [0; 1 / x; PI / x; PI] [1; 1; 0; 0]
       (Pchip.find_derivatives [0; 1 / x; PI / x; PI] [1; 1; 0; 0]))
    (removelast (tl [0; 1 / x; PI / x; PI])).

(** [x] solves the linear system [A x = b]. *)
Definition solves (A : arr2) (x b : arr1) : Prop :=
  len x = dim1 A /\
  forall i, (i < dim0 A)%nat ->
    sum_n (fun j => at2 A i j * at1 x j) (dim1 A) = at1 b i.

(** A square matrix whose systems all have exactly one solution. *)
Definition nonsingular (A : arr2) : Prop :=
  dim0 A = dim1 A /\
  (forall b, exists x, solves A x b) /\
  (forall x y b, solves A x b -> solves A y b ->
     forall j, (j < dim1 A)%nat -> at1 x j = at1 y j).

(** What [np.linalg.solve] promises: a returned vector solves the system,
    and a nonsingular system with a right-hand side of matching length has
    its solution returned. *)
Definition linalg_solve_contract
  (linalg_solve : arr2 -> arr1 -> result arr1) : Prop :=
  (forall A b x, linalg_solve A b = Ok x -> solves A x b) /\
  (forall A b, nonsingular A -> len b = dim0 A -> is_ok (linalg_solve A b)).

(** [A[i][j] = 2 pi (delta_ij + 2)] *)
Definition spec_A (i j : nat) : R :=
  2 * PI * ((if Nat.eqb i j then 1 else 0) + 2).

(** [b[i-1]]: the quadrature over [0, pi] of
    [2 (F(k) - 1) (cos(i k) - 1)], for the offset [i = 1 .. n]. *)
Definition spec_b (quad : (R -> R) -> R -> R -> R * R) (F : R -> R)
  (i : nat) : R :=
  fst (quad (fun k => 2 * (F k - 1) * (cos (INR i * k) - 1)) 0 PI).

(** The closed form of the solution of [A x = b] for [A = 2 pi (I + 2)]
    (identity plus rank one). *)
Definition closed_form (n : nat) (b : arr1) : arr1 :=
  mk1 n (fun j =>
    (at1 b j - 2 * sum_n (at1 b) n / (1 + 2 * INR n)) / (2 * PI)).

(** The symmetric kernel of length [2n + 1] built from the half [w]. *)
Definition full_kernel (w : arr1) : arr1 :=
  let n := (len w - 1)%nat in
  mk1 (2 * n + 1) (fun i => at1 w (if (i <? n)%nat then n - i else i - n)%nat).

(** *** Instances of the library routines *)

(** The composite midpoint rule with [N] panels, as a [quad]. *)
Definition midpoint_quad (N : nat) (f : R -> R) (a b : R) : R * R :=
  let h := (b - a) / INR N in
  (sum_n (fun k => f (a + (INR k + 1 / 2) * h) * h) N, 0).

(** The solver that returns a solution whenever one exists. *)
Definition ideal_solve (A : arr2) (b : arr1) : result arr1 :=
  match excluded_middle_informative (exists x, solves A x b) with
  | left H => Ok (proj1_sig (constructive_indefinite_description _ H))
  | right _ => Raise LinAlgError
  end.

(** *** Two states of the notebook with the same [x]

    [fresh_globals]: after [x = 8; F = ...].  [stale_globals]: after
    [x = 2; F = ...] followed by [x = 8] alone, so that [F] still is the
    interpolant for [x = 2]. *)
Definition fresh_globals : globals := mk_globals 8 (notebook_F 8).
Definition stale_globals : globals := mk_globals 8 (notebook_F 2).

(** ** The cells that call the two functions *)

(** [np.linspace(start, stop, num)]: [num] evenly spaced samples, the last
    one being [stop] itself; a single sample is [start]. *)
Definition linspace (start stop : R) (num : nat) : arr1 :=
  let div := (num - 1)%nat in
  let delta := stop - start in
  mk1 num (fun i =>
    if (0 <? div)%nat then
      if (i =? num - 1)%nat then stop
      else INR i * (delta / INR div) + start
    else INR i * delta + start).

(** The demonstration cell of [LaplacianHack.ipynb]:
    [Nx = 11; Ny = 21; dy = 1; dx = np.linspace(1,2,Ny)/2;
     landMask = 0*np.random.randint(0,2,(Nx,Ny));
     data = np.random.randn(Nx,Ny); L = Laplacian2D(data,landMask,dx,dy)].
    The two random draws are its inputs. *)
Definition demo_dx : arr1 := smap1 (fun v => v / 2) (linspace 1 2 21).

Definition demo_cell (randint randn : nat -> nat -> R) : result arr2 :=
  let Nx := 11%nat in
  let Ny := 21%nat in
  let dy := 1 in
  let dx := smap1 (fun v => v / 2) (linspace 1 2 Ny) in
  let landMask := smap2 (fun v => 0 * v) (mk2 Nx Ny randint) in
  let data := mk2 Nx Ny randn in
  Laplacian2D data landMask dx dy.

(** The data of the plot cell of [FilterWeights.ipynb]:
    [F(np.linspace(0, np.pi, num=101))]. *)
Definition plot_cell (g : globals) : arr1 :=
  smap1 (g_F g) (linspace 0 PI 101).

(** ** Further wording of what the Laplacian computes *)

(** The difference of [f] across the face between [idx] and its right
    neighbour. *)
Definition face_diff (f : nat -> R) (n idx : nat) : R :=
  f (wrap_next n idx) - f idx.

(** [dx] of length 1 written out for [n] columns. *)
Definition replicate1 (dx : arr1) (n : nat) : arr1 :=
  mk1 n (fun _ => at1 dx 0).
(** ** Facts about indices, slices and broadcasting *)

Section IndexFacts.

Lemma clamp_0 (n : nat) : clamp n 0 = 0%nat.
Proof. unfold clamp. destruct (Z.ltb_spec 0 0); lia. Qed.

Lemma clamp_1 (n : nat) : clamp n 1 = Nat.min 1 n.
Proof. unfold clamp. destruct (Z.ltb_spec 1 0); lia. Qed.

Lemma clamp_len (n : nat) : clamp n (Z.of_nat n) = n.
Proof.
  unfold clamp. destruct (Z.ltb_spec (Z.of_nat n) 0); lia.
Qed.

Lemma clamp_of_nat (n k : nat) : clamp n (Z.of_nat k) = Nat.min k n.
Proof.
  unfold clamp. destruct (Z.ltb_spec (Z.of_nat k) 0); lia.
Qed.

Lemma clamp_pred (n k : nat) :
  clamp n (Z.of_nat k - 1) =
  match k with O => (n - 1)%nat | S k' => Nat.min k' n end.
Proof.
  unfold clamp. destruct k as [|k'].
  - destruct (Z.ltb_spec (Z.of_nat 0 - 1) 0); lia.
  - destruct (Z.ltb_spec (Z.of_nat (S k') - 1) 0); lia.
Qed.

Lemma norm_index_0 (n : nat) :
  norm_index n 0 = if Nat.eqb n 0 then Raise IndexError else Ok 0%nat.
Proof.
  unfold norm_index.
  destruct (Z.ltb_spec 0 0); [lia|].
  destruct (Z.leb_spec 0 0); [|lia].
  destruct (Nat.eqb_spec n 0); destruct (Z.ltb_spec 0 (Z.of_nat n));
    try lia; reflexivity.
Qed.

Lemma norm_index_pred (n k : nat) :
  norm_index n (Z.of_nat k - 1) =
  match k with
  | O => if Nat.eqb n 0 then Raise IndexError else Ok (n - 1)%nat
  | S k' => if (k' <? n)%nat then Ok k' else Raise IndexError
  end.
Proof.
  unfold norm_index. destruct k as [|k'].
  - destruct (Z.ltb_spec (Z.of_nat 0 - 1) 0); [|lia].
    destruct (Z.ltb_spec (Z.of_nat 0 - 1 + Z.of_nat n) (Z.of_nat n)); [|lia].
    destruct (Nat.eqb_spec n 0);
      destruct (Z.leb_spec 0 (Z.of_nat 0 - 1 + Z.of_nat n)); try lia.
    + reflexivity.
    + cbn [andb]. f_equal. lia.
  - destruct (Z.ltb_spec (Z.of_nat (S k') - 1) 0); [lia|].
    destruct (Z.leb_spec 0 (Z.of_nat (S k') - 1)); [|lia].
    destruct (Nat.ltb_spec k' n);
      destruct (Z.ltb_spec (Z.of_nat (S k') - 1) (Z.of_nat n)); try lia.
    + cbn [andb]. f_equal. lia.
    + reflexivity.
Qed.

Lemma bdim_same (n : nat) : bdim n n = Ok n.
Proof. unfold bdim. now rewrite Nat.eqb_refl. Qed.

Lemma bidx_same (n i : nat) : bidx n n i = i.
Proof. unfold bidx. now rewrite Nat.eqb_refl. Qed.

Lemma fits_same (n : nat) : fits n n = true.
Proof. unfold fits. now rewrite Nat.eqb_refl. Qed.

Lemma bdim_inv (a b n : nat) :
  bdim a b = Ok n ->
  (a = b /\ n = a) \/ (a = 1%nat /\ n = b) \/ (b = 1%nat /\ n = a).
Proof.
  unfold bdim.
  destruct (Nat.eqb_spec a b); [intros [= <-]; auto|].
  destruct (Nat.eqb_spec a 1); [intros [= <-]; auto|].
  destruct (Nat.eqb_spec b 1); [intros [= <-]; auto|discriminate].
Qed.

Lemma fits_inv (v t : nat) : fits v t = true -> v = t \/ v = 1%nat.
Proof.
  unfold fits. intros H. apply orb_true_iff in H.
  destruct H as [H|H]; apply Nat.eqb_eq in H; auto.
Qed.

End IndexFacts.

(** ** Facts about [Laplacian2D] *)

Section LaplacianFacts.

Lemma clamp_S_pred (n : nat) : clamp (S n) (Z.of_nat (S n) - 1) = n.
Proof. rewrite clamp_pred. lia. Qed.

Lemma clamp_S_1 (n : nat) : clamp (S n) 1 = 1%nat.
Proof. rewrite clamp_1. lia. Qed.

Lemma norm_index_S_0 (n : nat) : norm_index (S n) 0 = Ok 0%nat.
Proof. now rewrite norm_index_0. Qed.

Lemma norm_index_S_pred (n : nat) :
  norm_index (S n) (Z.of_nat (S n) - 1) = Ok n.
Proof.
  rewrite norm_index_pred. now rewrite (proj2 (Nat.ltb_lt n (S n))) by lia.
Qed.

Lemma bdim_1_l (n : nat) : bdim 1 n = Ok n.
Proof.
  unfold bdim. destruct (Nat.eqb_spec 1 n) as [<-|]; reflexivity.
Qed.

Lemma bdim_1_r (n : nat) : bdim n 1 = Ok n.
Proof.
  unfold bdim. destruct (Nat.eqb_spec n 1) as [->|]; reflexivity.
Qed.

Lemma mod_next (n j : nat) :
  (j < S n)%nat ->
  wrap_next (S n) j = if (j =? n)%nat then 0%nat else S j.
Proof.
  unfold wrap_next. intros Hj. destruct (Nat.eqb_spec j n) as [->|Hne].
  - replace (n + 1)%nat with (S n) by lia. apply Nat.Div0.mod_same.
  - rewrite Nat.mod_small; lia.
Qed.

Lemma mod_prev (n j : nat) :
  (j < S n)%nat ->
  wrap_prev (S n) j = if (j =? 0)%nat then n else (j - 1)%nat.
Proof.
  unfold wrap_prev. intros Hj. destruct (Nat.eqb_spec j 0) as [->|Hne].
  - rewrite Nat.mod_small; lia.
  - replace (j + S n - 1)%nat with ((j - 1) + 1 * S n)%nat by lia.
    rewrite Nat.Div0.mod_add. rewrite Nat.mod_small; lia.
Qed.

Lemma wrap_next_lt (n j : nat) : (0 < n)%nat -> (wrap_next n j < n)%nat.
Proof. intros. apply Nat.mod_upper_bound. lia. Qed.

Lemma wrap_prev_lt (n j : nat) : (0 < n)%nat -> (wrap_prev n j < n)%nat.
Proof. intros. apply Nat.mod_upper_bound. lia. Qed.

End LaplacianFacts.

(** One round of evaluation of a numpy statement on arrays of known shape. *)
Ltac np_step :=
  rewrite ?clamp_0, ?clamp_S_1, ?clamp_len, ?clamp_S_pred,
          ?norm_index_S_0, ?norm_index_S_pred,
          ?bdim_same, ?bdim_1_l, ?fits_same, ?Nat.sub_0_r;
  cbn [bind dim0 dim1 at2 at1 len andb Nat.sub Nat.add].

Ltac np_unfold :=
  unfold Laplacian2D_OUT, cols, rows, col, row, smap2, smap1, zeros,
         set_cols, set_rows, set_col, set_row, bop12, bop2, bop1, py_div.

Section LaplacianEval.

(** On well-shaped arguments the accumulated array is the flux form. *)
Lemma Laplacian2D_OUT_eval field landMask dx dy :
  well_shaped field landMask dx dy ->
  exists OUT, Laplacian2D_OUT field landMask dx dy = Ok OUT /\
    dim0 OUT = dim0 field /\ dim1 OUT = dim1 field /\
    forall i j, (i < dim0 field)%nat -> (j < dim1 field)%nat ->
      at2 OUT i j = flux_form field landMask dx dy i j.
Proof.
  intros (H0 & H1 & Hdx & HNx & HNy & Hdy).
  destruct field as [Nx Ny f], landMask as [m0 m1 m], dx as [L h].
  cbn [dim0 dim1 len at2 at1] in *. subst m0 m1 L.
  destruct Nx as [|nx]; [lia|]. destruct Ny as [|ny]; [lia|].
  np_unfold.
  destruct (Req_dec_T (dy ^ 2) 0) as [E|_]; [exfalso; apply Hdy; nra|].
  cbn [dim0 dim1 at2 at1 len].
  do 40 np_step.
  eexists. split; [reflexivity|]. cbn [dim0 dim1 at2].
  split; [reflexivity|]. split; [reflexivity|].
  intros i j Hi Hj.
  unfold bidx; rewrite ?Nat.eqb_refl.
  replace (if (1 =? S nx)%nat then i else 0%nat) with 0%nat
    by (destruct (Nat.eqb_spec 1 (S nx)); lia).
  unfold flux_form, axis_term, spec_fluxRight, spec_fluxLeft.
  cbn [dim0 dim1 at2 at1].
  rewrite !mod_next, !mod_prev by assumption.
  rewrite !Nat.sub_0_r.
  destruct (Nat.eqb_spec j ny) as [Ejn|Ejn];
    destruct (Nat.eqb_spec j 0) as [Ej0|Ej0];
    destruct (Nat.eqb_spec i nx) as [Ein|Ein];
    destruct (Nat.eqb_spec i 0) as [Ei0|Ei0];
    repeat match goal with
    | |- context [(?a <=? ?b)%nat] => destruct (Nat.leb_spec a b); try lia
    | |- context [(?a <? ?b)%nat] => destruct (Nat.ltb_spec a b); try lia
    end;
    cbn [andb];
    try replace (S (j - 1)) with j by lia;
    try replace (S (i - 1)) with i by lia;
    subst; unfold Rdiv; ring.
Qed.

(** On well-shaped arguments the returned array is the flux form times
    [landMask]. *)
Lemma Laplacian2D_eval field landMask dx dy :
  well_shaped field landMask dx dy ->
  exists out, Laplacian2D field landMask dx dy = Ok out /\
    dim0 out = dim0 field /\ dim1 out = dim1 field /\
    forall i j, (i < dim0 field)%nat -> (j < dim1 field)%nat ->
      at2 out i j = flux_form field landMask dx dy i j * at2 landMask i j.
Proof.
  intros Hws.
  destruct (Laplacian2D_OUT_eval _ _ _ _ Hws) as (OUT & HOUT & Hd0 & Hd1 & Hat).
  destruct Hws as (H0 & H1 & _).
  unfold Laplacian2D. rewrite HOUT. cbn [bind]. unfold bop2.
  rewrite Hd0, Hd1, H0, H1, !bdim_same. cbn [bind].
  eexists. split; [reflexivity|]. cbn [dim0 dim1 at2].
  split; [reflexivity|]. split; [reflexivity|].
  intros i j Hi Hj. rewrite !bidx_same. now rewrite Hat.
Qed.

End LaplacianEval.

(** ** Which calls return *)

Section LaplacianShapes.

Lemma bind_ok {A B : Type} (m : result A) (k : A -> result B) (b : B) :
  bind m k = Ok b -> exists a, m = Ok a /\ k a = Ok b.
Proof. destruct m; cbn; [eauto|discriminate]. Qed.

Lemma bop2_inv f a b r :
  bop2 f a b = Ok r ->
  bdim (dim0 a) (dim0 b) = Ok (dim0 r) /\
  bdim (dim1 a) (dim1 b) = Ok (dim1 r).
Proof.
  unfold bop2. intros H.
  apply bind_ok in H as (n & Hn & H). apply bind_ok in H as (m & Hm & H).
  injection H as <-. auto.
Qed.

Lemma bop1_inv f a b r :
  bop1 f a b = Ok r -> bdim (len a) (len b) = Ok (len r).
Proof.
  unfold bop1. intros H. apply bind_ok in H as (n & Hn & H).
  injection H as <-. auto.
Qed.

Lemma set_cols_inv t lo hi v r :
  set_cols t lo hi v = Ok r ->
  dim0 r = dim0 t /\ dim1 r = dim1 t /\
  fits (dim0 v) (dim0 t) = true /\
  fits (dim1 v) (clamp (dim1 t) hi - clamp (dim1 t) lo) = true.
Proof.
  unfold set_cols.
  destruct (fits (dim0 v) (dim0 t)); cbn [andb]; [|discriminate].
  destruct (fits (dim1 v) _); [|discriminate].
  intros [= <-]. auto.
Qed.

Lemma set_rows_inv t lo hi v r :
  set_rows t lo hi v = Ok r ->
  dim0 r = dim0 t /\ dim1 r = dim1 t /\
  fits (dim0 v) (clamp (dim0 t) hi - clamp (dim0 t) lo) = true /\
  fits (dim1 v) (dim1 t) = true.
Proof.
  unfold set_rows.
  destruct (fits (dim0 v) _); cbn [andb]; [|discriminate].
  destruct (fits (dim1 v) _); [|discriminate].
  intros [= <-]. auto.
Qed.

Lemma col_inv a k r :
  col a k = Ok r -> len r = dim0 a /\ is_ok (norm_index (dim1 a) k).
Proof.
  unfold col. intros H. apply bind_ok in H as (c & Hc & H).
  injection H as <-. split; [reflexivity|]. now exists c.
Qed.

Lemma row_inv a k r :
  row a k = Ok r -> len r = dim1 a /\ is_ok (norm_index (dim0 a) k).
Proof.
  unfold row. intros H. apply bind_ok in H as (c & Hc & H).
  injection H as <-. split; [reflexivity|]. now exists c.
Qed.

Lemma set_col_inv t k v r :
  set_col t k v = Ok r ->
  dim0 r = dim0 t /\ dim1 r = dim1 t /\
  is_ok (norm_index (dim1 t) k) /\ fits (len v) (dim0 t) = true.
Proof.
  unfold set_col. intros H. apply bind_ok in H as (c & Hc & H).
  destruct (fits (len v) (dim0 t)); [|discriminate].
  injection H as <-. repeat split. now exists c.
Qed.

Lemma set_row_inv t k v r :
  set_row t k v = Ok r ->
  dim0 r = dim0 t /\ dim1 r = dim1 t /\
  is_ok (norm_index (dim0 t) k) /\ fits (len v) (dim1 t) = true.
Proof.
  unfold set_row. intros H. apply bind_ok in H as (c & Hc & H).
  destruct (fits (len v) (dim1 t)); [|discriminate].
  injection H as <-. repeat split. now exists c.
Qed.

Lemma py_div_nonzero a b : b <> 0 -> py_div a b = Ok (a / b).
Proof.
  intros H. unfold py_div.
  destruct (Req_dec_T b 0); [contradiction|reflexivity].
Qed.

Lemma py_div_inv a b c : py_div a b = Ok c -> b <> 0.
Proof. unfold py_div. destruct (Req_dec_T b 0); [discriminate|auto]. Qed.

Lemma norm_index_ok_0 n : is_ok (norm_index n 0) -> (1 <= n)%nat.
Proof.
  intros [c H]. rewrite norm_index_0 in H.
  destruct (Nat.eqb_spec n 0); [discriminate|lia].
Qed.

Lemma norm_index_ok_pred n k :
  is_ok (norm_index n (Z.of_nat k - 1)) -> (1 <= n)%nat /\ (k <= n)%nat.
Proof.
  intros [c H]. rewrite norm_index_pred in H. destruct k.
  - destruct (Nat.eqb_spec n 0); [discriminate|lia].
  - destruct (Nat.ltb_spec k n); [lia|discriminate].
Qed.

End LaplacianShapes.

(** Peel one statement off a chain that is known to return. *)
Ltac inv_bind H :=
  let E := fresh "E" in
  let a := fresh "a" in
  apply bind_ok in H as (a & E & H);
  first
    [ apply bop2_inv in E as [? ?]
    | apply bop1_inv in E
    | apply set_cols_inv in E as (? & ? & ? & ?)
    | apply set_rows_inv in E as (? & ? & ? & ?)
    | apply set_col_inv in E as (? & ? & ? & ?)
    | apply set_row_inv in E as (? & ? & ? & ?)
    | apply col_inv in E as (? & ?)
    | apply row_inv in E as (? & ?)
    | apply py_div_inv in E ].

Ltac shape_subst :=
  repeat match goal with
  | H : bdim ?n ?n = Ok _ |- _ =>
      rewrite bdim_same in H; injection H as H; symmetry in H
  | H : dim0 ?a = _ |- _ => is_var a; rewrite H in *; clear H
  | H : dim1 ?a = _ |- _ => is_var a; rewrite H in *; clear H
  | H : len ?a = _ |- _ => is_var a; rewrite H in *; clear H
  end.

Ltac shape_facts :=
  repeat match goal with
  | H : is_ok (norm_index _ 0) |- _ => apply norm_index_ok_0 in H
  | H : is_ok (norm_index _ (Z.of_nat _ - 1)) |- _ =>
      apply norm_index_ok_pred in H as [? ?]
  | H : bdim _ _ = Ok (len _) |- _ => apply bdim_inv in H
  | H : fits (len _) _ = true |- _ => apply fits_inv in H
  end.

Section LaplacianReturns.

(** A call that returns had accepted arguments. *)
Lemma Laplacian2D_ok_accepted field landMask dx dy out :
  Laplacian2D field landMask dx dy = Ok out ->
  accepted field landMask dx dy.
Proof.
  unfold Laplacian2D, accepted. intros H.
  apply bind_ok in H as (OUT & HOUT & H).
  apply bop2_inv in H as [Hr0 Hr1].
  unfold Laplacian2D_OUT in HOUT.
  repeat inv_bind HOUT.
  destruct field as [Nx Ny f], landMask as [m0 m1 m], dx as [L h].
  cbn [dim0 dim1 len smap2 smap1 zeros cols rows] in *.
  shape_subst.
  match goal with
  | H : bdim L Ny = Ok _ |- _ => apply bdim_inv in H
  end.
  shape_facts.
  assert (dy <> 0) by (intros ->; apply E3; ring).
  repeat split; try assumption; lia.
Qed.

(** Accepted arguments make the call return. *)
Lemma Laplacian2D_accepted_ok field landMask dx dy :
  accepted field landMask dx dy ->
  is_ok (Laplacian2D field landMask dx dy).
Proof.
  intros (H0 & H1 & HNx & HNy & Hdy & Hdx).
  destruct field as [Nx Ny f], landMask as [m0 m1 m], dx as [L h].
  cbn [dim0 dim1 len at2 at1] in *. subst m0 m1.
  destruct Nx as [|nx]; [lia|]. destruct Ny as [|ny]; [lia|].
  unfold Laplacian2D, is_ok. np_unfold.
  destruct (Req_dec_T (dy ^ 2) 0) as [E|_]; [exfalso; apply Hdy; nra|].
  cbn [dim0 dim1 at2 at1 len].
  do 40 np_step.
  destruct Hdx as [->|[->|Hny]].
  - do 6 np_step. eexists; reflexivity.
  - do 6 np_step. eexists; reflexivity.
  - injection Hny as ->. rewrite (bdim_1_r L). do 3 np_step.
    rewrite (bdim_1_r L). do 3 np_step. eexists; reflexivity.
Qed.

End LaplacianReturns.

(** ** Sums over a periodic axis *)

Section Sums.

Lemma sum_n_ext (f g : nat -> R) (n : nat) :
  (forall i, (i < n)%nat -> f i = g i) -> sum_n f n = sum_n g n.
Proof.
  induction n as [|n IH]; intros H; cbn; [reflexivity|].
  rewrite IH by (intros; apply H; lia). rewrite H by lia. reflexivity.
Qed.

Lemma sum_n_zero (f : nat -> R) (n : nat) :
  (forall i, (i < n)%nat -> f i = 0) -> sum_n f n = 0.
Proof.
  induction n as [|n IH]; intros H; cbn; [reflexivity|].
  rewrite IH by (intros; apply H; lia). rewrite H by lia. ring.
Qed.

Lemma sum_n_plus (f g : nat -> R) (n : nat) :
  sum_n (fun i => f i + g i) n = sum_n f n + sum_n g n.
Proof. induction n as [|n IH]; cbn; [ring|]. rewrite IH. ring. Qed.

Lemma sum_n_minus (f g : nat -> R) (n : nat) :
  sum_n (fun i => f i - g i) n = sum_n f n - sum_n g n.
Proof. induction n as [|n IH]; cbn; [ring|]. rewrite IH. ring. Qed.

Lemma sum_n_scal_l (c : R) (f : nat -> R) (n : nat) :
  sum_n (fun i => c * f i) n = c * sum_n f n.
Proof. induction n as [|n IH]; cbn; [ring|]. rewrite IH. ring. Qed.

Lemma sum_n_div (f : nat -> R) (c : R) (n : nat) :
  sum_n (fun i => f i / c) n = sum_n f n / c.
Proof.
  induction n as [|n IH]; cbn; [unfold Rdiv; ring|].
  rewrite IH. unfold Rdiv. ring.
Qed.

Lemma sum_n_const (c : R) (n : nat) : sum_n (fun _ => c) n = INR n * c.
Proof.
  induction n as [|n IH]; [cbn; ring|].
  rewrite S_INR. cbn [sum_n]. rewrite IH. ring.
Qed.

Lemma sum_n_swap (f : nat -> nat -> R) (n m : nat) :
  sum_n (fun i => sum_n (fun j => f i j) m) n =
  sum_n (fun j => sum_n (fun i => f i j) n) m.
Proof.
  induction n as [|n IH]; cbn.
  - symmetry. apply sum_n_zero. reflexivity.
  - rewrite IH. now rewrite <- sum_n_plus.
Qed.

Lemma sum_n_shift (f : nat -> R) (n : nat) :
  sum_n f (S n) = f 0%nat + sum_n (fun i => f (S i)) n.
Proof.
  induction n as [|n IH]; [cbn; ring|].
  change (sum_n f (S (S n))) with (sum_n f (S n) + f (S n)).
  rewrite IH. cbn [sum_n]. ring.
Qed.

(** A cyclic shift of the summation index does not change the sum. *)
Lemma sum_wrap_next (g : nat -> R) (n : nat) :
  sum_n (fun j => g (wrap_next n j)) n = sum_n g n.
Proof.
  destruct n as [|n]; [reflexivity|].
  rewrite (sum_n_shift g). cbn [sum_n].
  rewrite mod_next, Nat.eqb_refl by lia.
  rewrite (sum_n_ext _ (fun i => g (S i))); [ring|].
  intros i Hi. rewrite mod_next by lia.
  destruct (Nat.eqb_spec i n); [lia|reflexivity].
Qed.

Lemma sum_wrap_prev (g : nat -> R) (n : nat) :
  sum_n (fun j => g (wrap_prev n j)) n = sum_n g n.
Proof.
  destruct n as [|n]; [reflexivity|].
  rewrite (sum_n_shift (fun j => g (wrap_prev (S n) j))).
  rewrite mod_prev by lia. cbn [Nat.eqb sum_n].
  rewrite (sum_n_ext _ g); [ring|].
  intros i Hi. rewrite mod_prev by lia. cbn [Nat.eqb].
  f_equal. lia.
Qed.

(** With no land, the contributions of one axis cancel over the axis. *)
Lemma axis_term_conserved (nl f : nat -> R) (n : nat) (h : R) :
  (forall j, (j < n)%nat -> nl j = 1) ->
  sum_n (fun j => axis_term nl f n j h) n = 0.
Proof.
  intros Hnl. unfold axis_term, spec_fluxRight, spec_fluxLeft.
  rewrite sum_n_div.
  rewrite (sum_n_ext _
    (fun j => (f (wrap_next n j) + f (wrap_prev n j)) - (f j + f j))).
  - rewrite sum_n_minus, !sum_n_plus, sum_wrap_next, sum_wrap_prev.
    unfold Rdiv. ring.
  - intros j Hj.
    rewrite (Hnl (wrap_next n j)) by (apply wrap_next_lt; lia).
    rewrite (Hnl (wrap_prev n j)) by (apply wrap_prev_lt; lia).
    ring.
Qed.

(** With no land, the flux form sums to zero over the whole grid. *)
Lemma flux_form_conserved field landMask dx dy :
  (forall i j, (i < dim0 field)%nat -> (j < dim1 field)%nat ->
     at2 landMask i j = 0) ->
  sum_n (fun i => sum_n (fun j => flux_form field landMask dx dy i j)
                    (dim1 field)) (dim0 field) = 0.
Proof.
  intros Hland. unfold flux_form.
  rewrite (sum_n_ext _ (fun i =>
      sum_n (fun j => axis_term (fun b => 1 - at2 landMask i b)
                        (at2 field i) (dim1 field) j dy) (dim1 field)
    + sum_n (fun j => axis_term (fun a => 1 - at2 landMask a j)
                        (fun a => at2 field a j) (dim0 field) i (at1 dx j))
        (dim1 field)))
    by (intros; apply sum_n_plus).
  rewrite sum_n_plus.
  rewrite (sum_n_zero (fun i => sum_n _ _)).
  - rewrite sum_n_swap. rewrite sum_n_zero; [ring|].
    intros j Hj. apply axis_term_conserved.
    intros i Hi. rewrite Hland by assumption. ring.
  - intros i Hi. apply axis_term_conserved.
    intros j Hj. rewrite Hland by assumption. ring.
Qed.

End Sums.

(** ** Facts about the interpolant [F] *)

Section PchipFacts.

Lemma sign_0 : Pchip.sign 0 = 0.
Proof.
  unfold Pchip.sign. destruct (Rlt_dec 0 0); [lra|reflexivity].
Qed.

Lemma sign_eq_0 r : Pchip.sign r = 0 -> r = 0.
Proof.
  unfold Pchip.sign. destruct (Rlt_dec 0 r); [lra|].
  destruct (Rlt_dec r 0); lra.
Qed.

Lemma edge_case_flat h0 h1 m1 : Pchip.edge_case h0 h1 0 m1 = 0.
Proof.
  unfold Pchip.edge_case. rewrite sign_0.
  destruct (Req_dec_T _ 0) as [E|E]; [|reflexivity].
  apply sign_eq_0 in E. rewrite E.
  destruct (Req_dec_T 0 _); [reflexivity|].
  destruct (Rlt_dec _ _); [ring|reflexivity].
Qed.

Lemma interior_flat_l h0 h1 hk m1 mk :
  Pchip.interior (h0 :: h1 :: hk) (0 :: m1 :: mk) =
  0 :: Pchip.interior (h1 :: hk) (m1 :: mk).
Proof.
  cbn [Pchip.interior]. f_equal.
  destruct (Req_dec_T _ _); [|reflexivity].
  destruct (Req_dec_T m1 0); [reflexivity|].
  destruct (Req_dec_T 0 0); [reflexivity|lra].
Qed.

Lemma interior_flat_r h0 h1 hk m0 mk :
  Pchip.interior (h0 :: h1 :: hk) (m0 :: 0 :: mk) =
  0 :: Pchip.interior (h1 :: hk) (0 :: mk).
Proof.
  cbn [Pchip.interior]. f_equal.
  destruct (Req_dec_T _ _); [|reflexivity].
  destruct (Req_dec_T 0 0); [reflexivity|lra].
Qed.

Lemma smooth_poly h u :
  h <> 0 ->
  (0 + 0 - 2 * ((0 - 1) / h)) / h / h * u ^ 3
  + (((0 - 1) / h - 0) / h - (0 + 0 - 2 * ((0 - 1) / h)) / h) * u ^ 2
  + 0 * u + 1 = smooth (u / h).
Proof. intros Hh. unfold smooth. field. exact Hh. Qed.

Lemma knots_increasing x :
  1 < x -> 0 < 1 / x /\ 1 / x < PI / x /\ PI / x < PI.
Proof.
  intros Hx. pose proof PI2_1 as Hpi.
  assert (Hix : 0 < / x) by (apply Rinv_0_lt_compat; lra).
  assert (Hx1 : / x < 1).
  { rewrite <- Rinv_1. apply Rinv_lt_contravar; lra. }
  unfold Rdiv. repeat split; nra.
Qed.

Lemma bind_x_F_ok x :
  1 < x -> bind_x_F x = Ok (mk_globals x (notebook_F x)).
Proof.
  intros Hx. destruct (knots_increasing x Hx) as (Ha & Hb & Hc).
  unfold bind_x_F, py_div.
  destruct (Req_dec_T x 0); [lra|]. cbn [bind].
  unfold Pchip.PchipInterpolator. cbn [length Nat.ltb Nat.leb Nat.eqb negb].
  cbn [Pchip.strictly_increasing].
  destruct (Rlt_dec 0 (1 / x)); [|lra].
  destruct (Rlt_dec (1 / x) (PI / x)); [|lra].
  destruct (Rlt_dec (PI / x) PI); [|lra].
  reflexivity.
Qed.

(** The interpolant is the target response. *)
Lemma notebook_F_target x k : 1 < x -> notebook_F x k = target x k.
Proof.
  intros Hx. destruct (knots_increasing x Hx) as (Ha & Hb & Hc).
  unfold notebook_F, Pchip.ppoly, target.
  cbn [tl removelast Pchip.locate].
  unfold Pchip.find_derivatives. cbn [Pchip.diff Pchip.map2 length Nat.sub nth].
  replace ((1 - 1) / (1 / x - 0)) with 0 by (unfold Rdiv; ring).
  replace ((0 - 0) / (PI - PI / x)) with 0 by (unfold Rdiv; ring).
  rewrite !edge_case_flat, interior_flat_l, interior_flat_r.
  cbn [Pchip.interior app Pchip.pieces].
  destruct (Rlt_dec k (1 / x)); [|destruct (Rlt_dec k (PI / x))];
    cbn [nth]; unfold Pchip.poly;
    cbn [Pchip.x0 Pchip.c0 Pchip.c1 Pchip.c2 Pchip.c3].
  - unfold Rdiv. ring.
  - apply smooth_poly. lra.
  - unfold Rdiv. ring.
Qed.

Lemma smooth_factor s : smooth s = (1 - s) ^ 2 * (1 + 2 * s).
Proof. unfold smooth. ring. Qed.

Lemma smooth_bounds s : 0 <= s <= 1 -> 0 <= smooth s <= 1.
Proof.
  intros [H0 H1]. split.
  - rewrite smooth_factor. apply Rmult_le_pos; [apply pow2_ge_0|lra].
  - assert (E : 1 - smooth s = s ^ 2 * (3 - 2 * s)) by (unfold smooth; ring).
    assert (0 <= s ^ 2 * (3 - 2 * s))
      by (apply Rmult_le_pos; [apply pow2_ge_0|lra]).
    lra.
Qed.

Lemma smooth_pos s : 0 <= s < 1 -> 0 < smooth s.
Proof.
  intros [H0 H1]. rewrite smooth_factor.
  apply Rmult_lt_0_compat; [|lra].
  apply pow_lt. lra.
Qed.

Lemma smooth_decr s1 s2 : 0 <= s1 -> s1 <= s2 -> s2 <= 1 ->
  smooth s2 <= smooth s1.
Proof.
  intros H0 H12 H1.
  assert (E : smooth s1 - smooth s2 =
              (s2 - s1) * (3 * (s1 + s2) - 2 * (s1 ^ 2 + s1 * s2 + s2 ^ 2)))
    by (unfold smooth; ring).
  assert (0 <= 3 * (s1 + s2) - 2 * (s1 ^ 2 + s1 * s2 + s2 ^ 2)) by nra.
  assert (0 <= (s2 - s1) * (3 * (s1 + s2) - 2 * (s1 ^ 2 + s1 * s2 + s2 ^ 2)))
    by (apply Rmult_le_pos; lra).
  lra.
Qed.

Lemma ramp_bounds x k :
  1 < x -> 1 / x <= k -> k < PI / x ->
  0 <= (k - 1 / x) / (PI / x - 1 / x) < 1.
Proof.
  intros Hx H1 H2. destruct (knots_increasing x Hx) as (Ha & Hb & Hc).
  assert (Hh : 0 < PI / x - 1 / x) by lra.
  split.
  - apply Rmult_le_pos; [lra|]. left. now apply Rinv_0_lt_compat.
  - apply (Rmult_lt_reg_r (PI / x - 1 / x)); [exact Hh|].
    unfold Rdiv at 1. rewrite Rmult_assoc, Rinv_l by lra. lra.
Qed.

Lemma ramp_mono x k1 k2 :
  1 < x -> k1 <= k2 ->
  (k1 - 1 / x) / (PI / x - 1 / x) <= (k2 - 1 / x) / (PI / x - 1 / x).
Proof.
  intros Hx H12. destruct (knots_increasing x Hx) as (Ha & Hb & Hc).
  apply Rmult_le_compat_r; [|lra].
  left. apply Rinv_0_lt_compat. lra.
Qed.

Lemma target_bounds x k : 1 < x -> 0 <= target x k <= 1.
Proof.
  intros Hx. unfold target.
  destruct (Rlt_dec k (1 / x)); [lra|].
  destruct (Rlt_dec k (PI / x)); [|lra].
  apply smooth_bounds. pose proof (ramp_bounds x k Hx). lra.
Qed.

Lemma target_decr x k1 k2 : 1 < x -> k1 <= k2 -> target x k2 <= target x k1.
Proof.
  intros Hx H12. destruct (knots_increasing x Hx) as (Ha & Hb & Hc).
  pose proof (target_bounds x k1 Hx) as B1.
  pose proof (target_bounds x k2 Hx) as B2.
  unfold target in *.
  destruct (Rlt_dec k1 (1 / x)); [lra|].
  destruct (Rlt_dec k2 (1 / x)); [lra|].
  destruct (Rlt_dec k2 (PI / x)); [|lra].
  destruct (Rlt_dec k1 (PI / x)); [|lra].
  pose proof (ramp_bounds x k1 Hx). pose proof (ramp_bounds x k2 Hx).
  apply smooth_decr; [lra| |lra]. now apply ramp_mono.
Qed.

Lemma target_knots x :
  1 < x ->
  target x 0 = 1 /\ target x (1 / x) = 1 /\
  target x (PI / x) = 0 /\ target x PI = 0.
Proof.
  intros Hx. destruct (knots_increasing x Hx) as (Ha & Hb & Hc).
  unfold target. repeat split.
  - destruct (Rlt_dec 0 (1 / x)); [reflexivity|lra].
  - destruct (Rlt_dec (1 / x) (1 / x)); [lra|].
    destruct (Rlt_dec (1 / x) (PI / x)); [|lra].
    unfold smooth, Rdiv. ring.
  - destruct (Rlt_dec (PI / x) (1 / x)); [lra|].
    destruct (Rlt_dec (PI / x) (PI / x)); [lra|reflexivity].
  - destruct (Rlt_dec PI (1 / x)); [lra|].
    destruct (Rlt_dec PI (PI / x)); [lra|reflexivity].
Qed.

End PchipFacts.

(** ** Facts about [getWeights] *)

Section LinearSystem.

Lemma sum_delta (x : nat -> R) (n i : nat) :
  (i < n)%nat ->
  sum_n (fun j => (if Nat.eqb i j then 1 else 0) * x j) n = x i.
Proof.
  induction n as [|n IH]; intros Hi; [lia|]. cbn [sum_n].
  destruct (Nat.eqb_spec i n) as [->|Hne].
  - rewrite sum_n_zero; [ring|].
    intros j Hj. destruct (Nat.eqb_spec n j); [lia|ring].
  - rewrite IH by lia. ring.
Qed.

(** A row of [2 pi (I + 2)] applied to a vector. *)
Lemma spec_A_row (x : nat -> R) (n i : nat) :
  (i < n)%nat ->
  sum_n (fun j => spec_A i j * x j) n = 2 * PI * x i + 4 * PI * sum_n x n.
Proof.
  intros Hi. unfold spec_A.
  rewrite (sum_n_ext _ (fun j =>
    2 * PI * ((if Nat.eqb i j then 1 else 0) * x j) + 4 * PI * x j))
    by (intros; ring).
  rewrite sum_n_plus, !sum_n_scal_l, sum_delta by assumption. reflexivity.
Qed.

Lemma two_n_plus_1_pos (n : nat) : 0 < 1 + 2 * INR n.
Proof. pose proof (pos_INR n). lra. Qed.

Lemma closed_form_solves (n : nat) (b : arr1) :
  solves (weights_matrix n) (closed_form n b) b.
Proof.
  split; [reflexivity|]. cbn [dim0 dim1 weights_matrix smap2 eye].
  intros i Hi.
  rewrite (sum_n_ext _ (fun j => spec_A i j * at1 (closed_form n b) j))
    by reflexivity.
  rewrite spec_A_row by assumption. cbn [closed_form at1].
  rewrite sum_n_div, sum_n_minus, sum_n_const.
  pose proof (two_n_plus_1_pos n). pose proof PI_RGT_0.
  field. split; lra.
Qed.

Lemma weights_matrix_nonsingular (n : nat) : nonsingular (weights_matrix n).
Proof.
  split; [reflexivity|]. split.
  - intros b. exists (closed_form n b). apply closed_form_solves.
  - intros x y b [Hx Hsx] [Hy Hsy] j Hj.
    cbn [dim0 dim1 weights_matrix smap2 eye] in *.
    pose proof PI_RGT_0 as Hpi. pose proof (two_n_plus_1_pos n) as Hn.
    set (d := fun j => at1 x j - at1 y j).
    assert (Hd : forall i, (i < n)%nat ->
                   2 * PI * d i + 4 * PI * sum_n d n = 0).
    { intros i Hi. rewrite <- spec_A_row by assumption.
      unfold d.
      rewrite (sum_n_ext _ (fun j =>
        spec_A i j * at1 x j - spec_A i j * at1 y j)) by (intros; ring).
      rewrite sum_n_minus.
      pose proof (Hsx i Hi) as E1. pose proof (Hsy i Hi) as E2.
      change (sum_n (fun j => spec_A i j * at1 x j) n = at1 b i) in E1.
      change (sum_n (fun j => spec_A i j * at1 y j) n = at1 b i) in E2.
      rewrite E1, E2. ring. }
    assert (HD : sum_n d n = 0).
    { assert (E : sum_n (fun i => 2 * PI * d i + 4 * PI * sum_n d n) n = 0)
        by (apply sum_n_zero; exact Hd).
      rewrite sum_n_plus, sum_n_scal_l, sum_n_const in E.
      assert (E' : 2 * PI * (1 + 2 * INR n) * sum_n d n = 0) by lra.
      apply Rmult_integral in E'. destruct E' as [E'|E']; [|exact E'].
      apply Rmult_integral in E'. destruct E' as [E'|E']; lra. }
    pose proof (Hd j Hj) as E. rewrite HD in E.
    assert (d j = 0) by nra. unfold d in *. lra.
Qed.

End LinearSystem.

Section GetWeightsFacts.

Variable quad : (R -> R) -> R -> R -> R * R.
Variable linalg_solve : arr2 -> arr1 -> result arr1.
Hypothesis solve_ok : linalg_solve_contract linalg_solve.

Lemma norm_index_of_nat (n i : nat) :
  (i < n)%nat -> norm_index n (Z.of_nat i) = Ok i.
Proof.
  intros Hi. unfold norm_index.
  destruct (Z.ltb_spec (Z.of_nat i) 0); [lia|].
  destruct (Z.leb_spec 0 (Z.of_nat i)); [|lia].
  destruct (Z.ltb_spec (Z.of_nat i) (Z.of_nat n)); [|lia].
  cbn [andb]. f_equal. lia.
Qed.

(** The loop stores the quadrature for offset [i + 1] at index [i]. *)
Lemma fill_eval (F : R -> R) (c s : nat) (w : arr1) :
  (s + c <= len w)%nat ->
  exists w', fill quad F w (seq s c) = Ok w' /\ len w' = len w /\
    forall i, at1 w' i =
      if ((s <=? i) && (i <? s + c))%nat then spec_b quad F (i + 1)
      else at1 w i.
Proof.
  revert s w. induction c as [|c IH]; intros s w Hlen.
  - exists w. split; [reflexivity|]. split; [reflexivity|].
    intros i. destruct (Nat.leb_spec s i); destruct (Nat.ltb_spec i (s + 0));
      try reflexivity; lia.
  - cbn [seq fill]. unfold set1.
    rewrite norm_index_of_nat by lia. cbn [bind].
    destruct (IH (S s) (mk1 (len w) (fun j =>
                if Nat.eqb j s then fst (quad (integrand F s) 0 PI)
                else at1 w j))) as (w' & Hw' & Hl & Hat).
    { cbn [len]. lia. }
    exists w'. split; [exact Hw'|]. split; [exact Hl|].
    intros i. rewrite Hat. cbn [at1].
    destruct (Nat.leb_spec (S s) i); destruct (Nat.ltb_spec i (S s + c));
      destruct (Nat.leb_spec s i); destruct (Nat.ltb_spec i (s + S c));
      destruct (Nat.eqb_spec i s); cbn [andb]; try lia; try reflexivity.
    subst i. reflexivity.
Qed.

(** [getWeights] returns; its tail solves the system and its head closes the
    unit sum. *)
Lemma getWeights_eval (g : globals) (n : nat) :
  exists w t,
    getWeights quad linalg_solve g n = Ok w /\ len w = (n + 1)%nat /\
    solves (weights_matrix n) t
      (mk1 n (fun i => spec_b quad (g_F g) (i + 1))) /\
    (forall j, (j < n)%nat -> at1 w (1 + j) = at1 t j) /\
    at1 w 0 = 1 - 2 * sum_n (fun j => at1 w (1 + j)) n.
Proof.
  destruct solve_ok as [Hsound Htotal].
  unfold getWeights.
  destruct (fill_eval (g_F g) n 0 (zeros1 (n + 1))) as (w1 & Hw1 & Hl1 & Hat1).
  { cbn [len zeros1]. lia. }
  rewrite Hw1. cbn [bind]. cbn [len zeros1] in Hl1.
  set (b := slice1 w1 0 (Z.of_nat n)).
  assert (Hb : len b = n).
  { unfold b, slice1. cbn [len]. rewrite Hl1, clamp_0, clamp_of_nat. lia. }
  destruct (Htotal (weights_matrix n) b (weights_matrix_nonsingular n) Hb)
    as [t Ht].
  rewrite Ht. cbn [bind].
  pose proof (Hsound _ _ _ Ht) as [Hlt Hsol].
  cbn [dim0 dim1 weights_matrix smap2 eye] in Hlt, Hsol.
  unfold set_slice1_from, set_slice1.
  rewrite Hl1, clamp_of_nat, clamp_1, Hlt.
  replace (Nat.min (n + 1) (n + 1) - Nat.min 1 (n + 1))%nat with n by lia.
  replace (Nat.min 1 (n + 1)) with 1%nat by lia.
  rewrite fits_same. cbn [bind].
  unfold set1. cbn [len]. rewrite norm_index_0.
  replace (n + 1 =? 0)%nat with false by (symmetry; apply Nat.eqb_neq; lia).
  cbn [bind].
  eexists. exists t. split; [reflexivity|]. cbn [len at1].
  split; [reflexivity|].
  assert (Hsum : sum1 (slice1_from
            (mk1 (n + 1) (fun j =>
               if ((1 <=? j) && (j <? 1 + n))%nat
               then at1 t (bidx n n (j - 1)) else at1 w1 j)) 1)
          = sum_n (at1 t) n).
  { unfold sum1, slice1_from, slice1. cbn [len at1].
    rewrite clamp_of_nat, clamp_1.
    replace (Nat.min (n + 1) (n + 1) - Nat.min 1 (n + 1))%nat with n by lia.
    replace (Nat.min 1 (n + 1)) with 1%nat by lia.
    apply sum_n_ext. intros i Hi. rewrite bidx_same.
    destruct (Nat.leb_spec 1 (1 + i)); [|lia].
    destruct (Nat.ltb_spec (1 + i) (1 + n)); [|lia].
    cbn [andb]. f_equal. lia. }
  assert (Htail : forall j, (j < n)%nat ->
            (if ((1 <=? 1 + j) && (1 + j <? 1 + n))%nat
             then at1 t (bidx n n (1 + j - 1)) else at1 w1 (1 + j))
            = at1 t j).
  { intros j Hj. rewrite bidx_same.
    destruct (Nat.leb_spec 1 (1 + j)); [|lia].
    destruct (Nat.ltb_spec (1 + j) (1 + n)); [|lia].
    cbn [andb]. f_equal. lia. }
  split; [|split].
  - split; [exact Hlt|]. cbn [dim0 dim1 weights_matrix smap2 eye at1].
    intros i Hi. rewrite (Hsol i Hi).
    unfold b, slice1. cbn [at1]. rewrite clamp_0, Hat1. cbn [Nat.add].
    destruct (Nat.leb_spec 0 i); [|lia].
    destruct (Nat.ltb_spec i n); [|lia]. reflexivity.
  - intros j Hj.
    replace (Nat.eqb (1 + j) 0) with false
      by (symmetry; apply Nat.eqb_neq; lia).
    now apply Htail.
  - cbn [Nat.eqb]. rewrite Hsum. f_equal. f_equal.
    apply sum_n_ext. intros j Hj.
    replace (Nat.eqb (1 + j) 0) with false
      by (symmetry; apply Nat.eqb_neq; lia).
    symmetry. now apply Htail.
Qed.

End GetWeightsFacts.

(** ** Facts about the full kernel and about the instances *)

Section KernelFacts.

Lemma sum_n_app (f : nat -> R) (n m : nat) :
  sum_n f (n + m) = sum_n f n + sum_n (fun i => f (n + i)%nat) m.
Proof.
  induction m as [|m IH].
  - rewrite Nat.add_0_r. cbn. ring.
  - rewrite Nat.add_succ_r. cbn [sum_n]. rewrite IH. ring.
Qed.

Lemma sum_n_rev (f : nat -> R) (n : nat) :
  sum_n (fun i => f (n - 1 - i)%nat) n = sum_n f n.
Proof.
  induction n as [|n IH]; [reflexivity|].
  rewrite sum_n_shift. cbn [sum_n]. rewrite <- IH.
  replace (S n - 1 - 0)%nat with n by lia.
  rewrite (sum_n_ext (fun i => f (S n - 1 - S i)%nat)
                     (fun i => f (n - 1 - i)%nat)); [ring|].
  intros i Hi. f_equal. lia.
Qed.

(** The full kernel sums to the centre tap plus twice the tail. *)
Lemma full_kernel_sum (w : arr1) (n : nat) :
  len w = (n + 1)%nat ->
  sum1 (full_kernel w) = at1 w 0 + 2 * sum_n (fun d => at1 w (1 + d)) n.
Proof.
  intros Hl. unfold sum1, full_kernel. cbn [len at1]. rewrite Hl.
  replace (n + 1 - 1)%nat with n by lia.
  replace (2 * n + 1)%nat with (n + (n + 1))%nat by lia.
  rewrite sum_n_app.
  rewrite (sum_n_ext _ (fun i => at1 w (1 + (n - 1 - i)))).
  2:{ intros i Hi. destruct (Nat.ltb_spec i n); [|lia]. f_equal. lia. }
  rewrite (sum_n_rev (fun d => at1 w (1 + d))).
  rewrite (sum_n_ext _ (at1 w) (n + 1)).
  2:{ intros i Hi. destruct (Nat.ltb_spec (n + i) n); [lia|]. f_equal. lia. }
  replace (n + 1)%nat with (S n) by lia. rewrite sum_n_shift.
  cbn [Nat.add]. ring.
Qed.

Lemma ideal_solve_contract : linalg_solve_contract ideal_solve.
Proof.
  split.
  - intros A b x. unfold ideal_solve.
    destruct (excluded_middle_informative _) as [H|H]; [|discriminate].
    intros [= <-]. exact (proj2_sig (constructive_indefinite_description _ H)).
  - intros A b (_ & Hex & _) _. unfold ideal_solve, is_ok.
    destruct (excluded_middle_informative _) as [H|H]; [eauto|].
    exfalso. apply H. apply Hex.
Qed.

(** The two-panel midpoint rule samples the integrand for offset 1 at
    [pi/4] and [3 pi/4]. *)
Lemma spec_b_midpoint (F : R -> R) :
  spec_b (midpoint_quad 2) F 1 =
  (2 * (F (PI / 4) - 1) * (cos (PI / 4) - 1)
   + 2 * (F (3 * PI / 4) - 1) * (cos (3 * PI / 4) - 1)) * (PI / 2).
Proof.
  unfold spec_b, midpoint_quad. cbn [fst sum_n INR].
  replace (0 + (0 + 1 / 2) * ((PI - 0) / (1 + 1))) with (PI / 4) by field.
  replace (0 + (1 + 1 / 2) * ((PI - 0) / (1 + 1))) with (3 * PI / 4) by field.
  replace ((PI - 0) / (1 + 1)) with (PI / 2) by field.
  rewrite !Rmult_1_l. ring.
Qed.

Lemma cos_PI4_lt_1 : cos (PI / 4) <> 1.
Proof.
  pose proof PI_RGT_0 as Hpi.
  assert (Hs : 0 < sin (PI / 4)) by (apply sin_gt_0; lra).
  pose proof (sin2_cos2 (PI / 4)) as E. unfold Rsqr in E.
  intros Hc. rewrite Hc in E. nra.
Qed.

(** The two interpolants differ at [pi/4], and agree at [3 pi/4]. *)
Lemma stale_fresh_samples :
  0 < notebook_F 2 (PI / 4) /\ notebook_F 8 (PI / 4) = 0 /\
  notebook_F 2 (3 * PI / 4) = 0 /\ notebook_F 8 (3 * PI / 4) = 0.
Proof.
  pose proof PI2_1 as Hpi.
  rewrite !notebook_F_target by lra. unfold target. repeat split.
  - destruct (Rlt_dec (PI / 4) (1 / 2)); [lra|].
    destruct (Rlt_dec (PI / 4) (PI / 2)); [|lra].
    apply smooth_pos. apply ramp_bounds; lra.
  - destruct (Rlt_dec (PI / 4) (1 / 8)); [lra|].
    destruct (Rlt_dec (PI / 4) (PI / 8)); [lra|reflexivity].
  - destruct (Rlt_dec (3 * PI / 4) (1 / 2)); [lra|].
    destruct (Rlt_dec (3 * PI / 4) (PI / 2)); [lra|reflexivity].
  - destruct (Rlt_dec (3 * PI / 4) (1 / 8)); [lra|].
    destruct (Rlt_dec (3 * PI / 4) (PI / 8)); [lra|reflexivity].
Qed.

End KernelFacts.

(** ** Claims about [Laplacian2D] *)

Section LaplacianClaims.

Lemma spike_well_shaped (landMask : arr2) :
  dim0 landMask = 3%nat -> dim1 landMask = 3%nat ->
  well_shaped spike landMask unit_dx 1.
Proof.
  intros H0 H1. unfold well_shaped. cbn.
  repeat split; try assumption; try lia; lra.
Qed.

Lemma unit_dx_nonzero (j : nat) : (j < 3)%nat -> at1 unit_dx j <> 0.
Proof.
  intros Hj. destruct j as [|[|[|j]]]; [| | |lia]; cbn; lra.
Qed.

(** Evaluate the flux form at a cell of a concrete grid. *)
Ltac flux_at :=
  unfold flux_form, axis_term, spec_fluxRight, spec_fluxLeft,
         wrap_next, wrap_prev;
  cbn; lra.

(** C1 (code defect): on the 3 x 3 grid whose centre cell is both the spike
    and the only land cell, [Laplacian2D] returns [-4] at that land cell,
    where the claim requires exactly [0]: the [return] statement multiplies
    by [landMask], which keeps the land cells instead of clearing them. *)
Theorem C1_land_cell_not_zeroed :
  exists out, Laplacian2D spike land_centre unit_dx 1 = Ok out /\
    at2 land_centre 1 1 = 1 /\ at2 out 1 1 = -4 /\ at2 out 1 1 <> 0.
Proof.
  destruct (Laplacian2D_eval spike land_centre unit_dx 1)
    as (out & Hout & _ & _ & Hat).
  { apply spike_well_shaped; reflexivity. }
  exists out. split; [exact Hout|]. split; [reflexivity|].
  assert (E : at2 out 1 1 = -4).
  { rewrite Hat by (cbn; lia). flux_at. }
  split; [exact E|]. rewrite E. lra.
Qed.

(** C2 (code defect): on the worked 3 x 3 case (single spike, no land,
    unit spacings) the array accumulated before the [return] statement has
    [-4] at the spike and [+1] at its four periodic neighbours, but the
    returned array is [0] at all five cells, because it is multiplied by the
    all-zero [landMask]. *)
Theorem C2_spike_case_returns_zero :
  exists OUT out,
    Laplacian2D_OUT spike no_land unit_dx 1 = Ok OUT /\
    at2 OUT 1 1 = -4 /\
    at2 OUT 0 1 = 1 /\ at2 OUT 2 1 = 1 /\ at2 OUT 1 0 = 1 /\ at2 OUT 1 2 = 1 /\
    Laplacian2D spike no_land unit_dx 1 = Ok out /\
    at2 out 1 1 = 0 /\
    at2 out 0 1 = 0 /\ at2 out 2 1 = 0 /\ at2 out 1 0 = 0 /\ at2 out 1 2 = 0.
Proof.
  assert (Hws : well_shaped spike no_land unit_dx 1)
    by (apply spike_well_shaped; reflexivity).
  destruct (Laplacian2D_OUT_eval _ _ _ _ Hws) as (OUT & HOUT & _ & _ & HatO).
  destruct (Laplacian2D_eval _ _ _ _ Hws) as (out & Hout & _ & _ & Hat).
  exists OUT, out.
  repeat split; try assumption;
    first [ rewrite HatO by (cbn; lia) | rewrite Hat by (cbn; lia) ];
    flux_at.
Qed.

(** C3: on well-shaped arguments with no zero entry in [dx],
    [Laplacian2D] returns an array of the shape of [field] that is exactly
    zero at every cell where [landMask] is 0; when [landMask] is zero
    everywhere, the returned array is zero everywhere. *)
Theorem C3_zero_on_open_water field landMask dx dy :
  well_shaped field landMask dx dy ->
  (forall j, (j < dim1 field)%nat -> at1 dx j <> 0) ->
  exists out, Laplacian2D field landMask dx dy = Ok out /\
    dim0 out = dim0 field /\ dim1 out = dim1 field /\
    (forall i j, (i < dim0 field)%nat -> (j < dim1 field)%nat ->
       at2 landMask i j = 0 -> at2 out i j = 0) /\
    ((forall i j, (i < dim0 field)%nat -> (j < dim1 field)%nat ->
        at2 landMask i j = 0) ->
     forall i j, (i < dim0 field)%nat -> (j < dim1 field)%nat ->
       at2 out i j = 0).
Proof.
  intros Hws _.
  destruct (Laplacian2D_eval _ _ _ _ Hws) as (out & Hout & Hd0 & Hd1 & Hat).
  exists out. repeat split; try assumption.
  - intros i j Hi Hj Hland. rewrite Hat, Hland by assumption. ring.
  - intros Hland i j Hi Hj. rewrite Hat, Hland by assumption. ring.
Qed.

Lemma C3_zero_on_open_water_witness :
  exists out, Laplacian2D spike no_land unit_dx 1 = Ok out /\
    dim0 out = dim0 spike /\ dim1 out = dim1 spike /\
    (forall i j, (i < dim0 spike)%nat -> (j < dim1 spike)%nat ->
       at2 no_land i j = 0 -> at2 out i j = 0) /\
    ((forall i j, (i < dim0 spike)%nat -> (j < dim1 spike)%nat ->
        at2 no_land i j = 0) ->
     forall i j, (i < dim0 spike)%nat -> (j < dim1 spike)%nat ->
       at2 out i j = 0).
Proof.
  apply (C3_zero_on_open_water spike no_land unit_dx 1).
  - unfold well_shaped. cbn. repeat split; try lia. lra.
  - exact unit_dx_nonzero.
Defined.

Lemma sum2_same (a : arr2) (g : nat -> nat -> R) :
  (forall i j, (i < dim0 a)%nat -> (j < dim1 a)%nat -> at2 a i j = g i j) ->
  sum2 a = sum_n (fun i => sum_n (g i) (dim1 a)) (dim0 a).
Proof.
  intros H. unfold sum2. apply sum_n_ext. intros i Hi.
  apply sum_n_ext. intros j Hj. now apply H.
Qed.

(** C4: on well-shaped arguments with no zero entry in [dx] and no land,
    the sum over all cells of the array returned by [Laplacian2D] is zero;
    so is the sum of the array accumulated before the [return] statement
    (the flux form telescopes along each periodic axis). *)
Theorem C4_zero_sum_without_land field landMask dx dy :
  well_shaped field landMask dx dy ->
  (forall j, (j < dim1 field)%nat -> at1 dx j <> 0) ->
  (forall i j, (i < dim0 field)%nat -> (j < dim1 field)%nat ->
     at2 landMask i j = 0) ->
  exists OUT out,
    Laplacian2D_OUT field landMask dx dy = Ok OUT /\ sum2 OUT = 0 /\
    Laplacian2D field landMask dx dy = Ok out /\ sum2 out = 0.
Proof.
  intros Hws _ Hland.
  destruct (Laplacian2D_OUT_eval _ _ _ _ Hws) as (OUT & HOUT & Hd0 & Hd1 & HatO).
  destruct (Laplacian2D_eval _ _ _ _ Hws) as (out & Hout & He0 & He1 & Hat).
  exists OUT, out. repeat split; try assumption.
  - rewrite (sum2_same OUT (flux_form field landMask dx dy)).
    + rewrite Hd0, Hd1. now apply flux_form_conserved.
    + rewrite Hd0, Hd1. exact HatO.
  - unfold sum2. apply sum_n_zero. intros i Hi. apply sum_n_zero. intros j Hj.
    rewrite He0 in Hi. rewrite He1 in Hj.
    rewrite Hat, Hland by assumption. ring.
Qed.

Lemma C4_zero_sum_without_land_witness :
  exists OUT out,
    Laplacian2D_OUT spike no_land unit_dx 1 = Ok OUT /\ sum2 OUT = 0 /\
    Laplacian2D spike no_land unit_dx 1 = Ok out /\ sum2 out = 0.
Proof.
  apply (C4_zero_sum_without_land spike no_land unit_dx 1).
  - unfold well_shaped. cbn. repeat split; try lia. lra.
  - exact unit_dx_nonzero.
  - intros i j Hi Hj. cbn in Hi, Hj.
    destruct i as [|[|[|i]]]; [| | |lia];
      (destruct j as [|[|[|j]]]; [| | |lia]); reflexivity.
Defined.

(** C5: on well-shaped arguments with no zero entry in [dx], the array
    accumulated by [Laplacian2D] holds, at every cell [(i, j)], the y-axis
    contribution
    [(fluxRight - fluxLeft) / dy^2] plus the x-axis contribution
    [(fluxRight - fluxLeft) / dx[j]^2], with
    [fluxRight[idx] = notLand[idx+1] * (field[idx+1] - field[idx])],
    [fluxLeft[idx] = notLand[idx-1] * (field[idx] - field[idx-1])],
    [notLand = 1 - landMask] and indices wrapping along the axis. *)
Theorem C5_flux_form field landMask dx dy :
  well_shaped field landMask dx dy ->
  (forall j, (j < dim1 field)%nat -> at1 dx j <> 0) ->
  exists OUT, Laplacian2D_OUT field landMask dx dy = Ok OUT /\
    dim0 OUT = dim0 field /\ dim1 OUT = dim1 field /\
    forall i j, (i < dim0 field)%nat -> (j < dim1 field)%nat ->
      let notLand := fun a b => 1 - at2 landMask a b in
      let Nx := dim0 field in
      let Ny := dim1 field in
      at2 OUT i j =
        (spec_fluxRight (notLand i) (at2 field i) Ny j
         - spec_fluxLeft (notLand i) (at2 field i) Ny j) / dy ^ 2
        + (spec_fluxRight (fun a => notLand a j) (fun a => at2 field a j) Nx i
           - spec_fluxLeft (fun a => notLand a j) (fun a => at2 field a j) Nx i)
          / at1 dx j ^ 2.
Proof.
  intros Hws _.
  destruct (Laplacian2D_OUT_eval _ _ _ _ Hws) as (OUT & HOUT & Hd0 & Hd1 & Hat).
  exists OUT. split; [exact HOUT|]. split; [exact Hd0|]. split; [exact Hd1|].
  intros i j Hi Hj. cbv zeta. rewrite Hat by assumption. reflexivity.
Qed.

Lemma C5_flux_form_witness :
  exists OUT, Laplacian2D_OUT spike no_land unit_dx 1 = Ok OUT /\
    dim0 OUT = dim0 spike /\ dim1 OUT = dim1 spike /\
    forall i j, (i < dim0 spike)%nat -> (j < dim1 spike)%nat ->
      let notLand := fun a b => 1 - at2 no_land a b in
      let Nx := dim0 spike in
      let Ny := dim1 spike in
      at2 OUT i j =
        (spec_fluxRight (notLand i) (at2 spike i) Ny j
         - spec_fluxLeft (notLand i) (at2 spike i) Ny j) / 1 ^ 2
        + (spec_fluxRight (fun a => notLand a j) (fun a => at2 spike a j) Nx i
           - spec_fluxLeft (fun a => notLand a j) (fun a => at2 spike a j) Nx i)
          / at1 unit_dx j ^ 2.
Proof.
  apply (C5_flux_form spike no_land unit_dx 1).
  - unfold well_shaped. cbn. repeat split; try lia. lra.
  - exact unit_dx_nonzero.
Defined.

(** C9 (as stated, refuted): a [dx] of length 1 on a grid with [Ny = 3]
    has the wrong length, yet the call returns: numpy broadcasts it. *)
Lemma C9_short_dx_is_broadcast :
  len (of_list [1]) <> dim1 spike /\
  is_ok (Laplacian2D spike no_land (of_list [1]) 1).
Proof.
  split; [cbn; lia|].
  apply Laplacian2D_accepted_ok. unfold accepted. cbn.
  repeat split; try lia; try lra.
Qed.

Lemma accepted_shapes field landMask dx dy :
  accepted field landMask dx dy <->
  dy <> 0 /\ shapes_accepted field landMask dx.
Proof. unfold accepted, shapes_accepted. tauto. Qed.

(** C9 (amended): whatever [dy] is, a call returns nothing but an error
    unless [landMask] has the shape of [field], the grid has at least one
    row and one column, and [dx] has length [Ny] or length 1 (or [Ny = 1]);
    and for [dy] a Python integer the call returns a result exactly when
    [dy] is not 0 and these conditions on the shapes hold. *)
Theorem C9_shape_mismatch_raises field landMask dx :
  (forall dy : R,
     is_ok (Laplacian2D field landMask dx dy) ->
     shapes_accepted field landMask dx) /\
  (forall dy : Z,
     is_ok (Laplacian2D field landMask dx (IZR dy)) <->
     dy <> 0%Z /\ shapes_accepted field landMask dx).
Proof.
  split.
  - intros dy [out Hout].
    apply Laplacian2D_ok_accepted in Hout.
    apply accepted_shapes in Hout. tauto.
  - intros dy. split.
    + intros [out Hout]. apply Laplacian2D_ok_accepted in Hout.
      apply accepted_shapes in Hout. destruct Hout as [Hdy Hs].
      split; [|exact Hs]. intros ->. apply Hdy. reflexivity.
    + intros [Hdy Hs]. apply Laplacian2D_accepted_ok.
      apply accepted_shapes. split; [|exact Hs].
      now apply not_0_IZR.
Qed.

(** The error is the one numpy raises where the call breaks: an index
    error for a [landMask] with too few columns, a broadcasting error for
    one with too many or for a [dx] of length 2, a division error for a
    Python number [dy = 0], an index error for an empty grid. *)
Example narrow_mask_raises :
  Laplacian2D spike (zeros 3 2) unit_dx 1 = Raise IndexError.
Proof. lazy. reflexivity. Qed.

Example wide_mask_raises :
  Laplacian2D spike (zeros 3 4) unit_dx 1 = Raise ValueError.
Proof.
  unfold Laplacian2D, Laplacian2D_OUT. rewrite py_div_nonzero by lra.
  lazy. reflexivity.
Qed.

Example dx_of_length_2_raises :
  Laplacian2D spike no_land (of_list [1; 1]) 1 = Raise ValueError.
Proof.
  unfold Laplacian2D, Laplacian2D_OUT. rewrite py_div_nonzero by lra.
  lazy. reflexivity.
Qed.

Example zero_dy_raises :
  Laplacian2D spike no_land unit_dx 0 = Raise ZeroDivisionError.
Proof.
  unfold Laplacian2D, Laplacian2D_OUT, py_div.
  destruct (Req_dec_T (0 ^ 2) 0) as [E|E]; [|exfalso; apply E; ring].
  lazy. reflexivity.
Qed.

Example empty_grid_raises :
  Laplacian2D (zeros 0 3) (zeros 0 3) unit_dx 1 = Raise IndexError.
Proof.
  unfold Laplacian2D, Laplacian2D_OUT. rewrite py_div_nonzero by lra.
  lazy. reflexivity.
Qed.

(** Consequences: a [landMask] of another shape, and a [dx] whose length is
    neither [Ny] nor 1 on a grid of more than one column, make the call
    raise. *)
Corollary Laplacian2D_mask_mismatch_raises field landMask dx dy :
  dim0 landMask <> dim0 field \/ dim1 landMask <> dim1 field ->
  exists e, Laplacian2D field landMask dx dy = Raise e.
Proof.
  intros Hbad. destruct (Laplacian2D field landMask dx dy) as [out|e] eqn:E.
  - apply Laplacian2D_ok_accepted in E. destruct E as (H0 & H1 & _). tauto.
  - now exists e.
Qed.

Corollary Laplacian2D_dx_mismatch_raises field landMask dx dy :
  len dx <> dim1 field -> len dx <> 1%nat -> dim1 field <> 1%nat ->
  exists e, Laplacian2D field landMask dx dy = Raise e.
Proof.
  intros Ha Hb Hc. destruct (Laplacian2D field landMask dx dy) as [out|e] eqn:E.
  - apply Laplacian2D_ok_accepted in E.
    destruct E as (_ & _ & _ & _ & _ & Hdx). tauto.
  - now exists e.
Qed.

End LaplacianClaims.

(** ** Claims about the filter designer *)

Section FilterClaims.

(** C6: for every coarsening ratio [x > 1] and every half-width [n], with
    any quadrature routine and any linear solver that keeps its contract,
    the notebook's designer returns [n + 1] weights [w] with
    [w[0] + 2 (w[1] + ... + w[n]) = 1]; the full symmetric kernel of length
    [2n + 1] built from [w] sums to 1. *)
Theorem C6_unit_sum
  (quad : (R -> R) -> R -> R -> R * R)
  (linalg_solve : arr2 -> arr1 -> result arr1) (x : R) (n : nat) :
  linalg_solve_contract linalg_solve ->
  1 < x ->
  exists w, designFilter quad linalg_solve x n = Ok w /\
    len w = (n + 1)%nat /\
    at1 w 0 + 2 * sum_n (fun d => at1 w (1 + d)) n = 1 /\
    sum1 (full_kernel w) = 1.
Proof.
  intros Hc Hx. unfold designFilter. rewrite bind_x_F_ok by exact Hx.
  cbn [bind].
  destruct (getWeights_eval quad linalg_solve Hc (mk_globals x (notebook_F x)) n)
    as (w & t & Hw & Hl & _ & _ & H0).
  exists w. split; [exact Hw|]. split; [exact Hl|].
  assert (E : at1 w 0 + 2 * sum_n (fun d => at1 w (1 + d)) n = 1)
    by (rewrite H0; ring).
  split; [exact E|]. now rewrite (full_kernel_sum w n Hl).
Qed.

Lemma C6_unit_sum_witness :
  exists w, designFilter (midpoint_quad 2) ideal_solve 2 1 = Ok w /\
    len w = (1 + 1)%nat /\
    at1 w 0 + 2 * sum_n (fun d => at1 w (1 + d)) 1 = 1 /\
    sum1 (full_kernel w) = 1.
Proof.
  apply (C6_unit_sum (midpoint_quad 2) ideal_solve 2 1).
  - exact ideal_solve_contract.
  - lra.
Defined.

(** C7: for every [x > 1] and every [n], the designer returns exactly
    [n + 1] reals [w]; the tail [w[1..n]] is the solution of the [n x n]
    system [A w_tail = b] with [A[i][j] = 2 pi (delta_ij + 2)] and [b[i-1]]
    the quadrature over [0, pi] of [2 (F(k) - 1) (cos(i k) - 1)] for the
    offset [i = 1 .. n], where [F] is the interpolant bound for [x]; and the
    centre tap is [w[0] = 1 - 2 (w[1] + ... + w[n])]. *)
Theorem C7_weights_solve_system
  (quad : (R -> R) -> R -> R -> R * R)
  (linalg_solve : arr2 -> arr1 -> result arr1) (x : R) (n : nat) :
  linalg_solve_contract linalg_solve ->
  1 < x ->
  exists w, designFilter quad linalg_solve x n = Ok w /\
    len w = (n + 1)%nat /\
    (forall i, (i < n)%nat ->
       sum_n (fun j => spec_A i j * at1 w (1 + j)) n
       = spec_b quad (notebook_F x) (i + 1)) /\
    (forall t : nat -> R,
       (forall i, (i < n)%nat ->
          sum_n (fun j => spec_A i j * t j) n
          = spec_b quad (notebook_F x) (i + 1)) ->
       forall j, (j < n)%nat -> t j = at1 w (1 + j)) /\
    at1 w 0 = 1 - 2 * sum_n (fun j => at1 w (1 + j)) n.
Proof.
  intros Hc Hx. unfold designFilter. rewrite bind_x_F_ok by exact Hx.
  cbn [bind].
  destruct (getWeights_eval quad linalg_solve Hc (mk_globals x (notebook_F x)) n)
    as (w & t & Hw & Hl & Hsol & Htail & H0).
  cbn [g_F] in Hsol.
  exists w. split; [exact Hw|]. split; [exact Hl|].
  destruct Hsol as [Hlt Hsys].
  cbn [dim0 dim1 weights_matrix smap2 eye at1] in Hlt, Hsys.
  split; [|split; [|exact H0]].
  - intros i Hi. rewrite <- (Hsys i Hi).
    apply sum_n_ext. intros j Hj. now rewrite Htail.
  - intros u Hu j Hj. rewrite Htail by exact Hj.
    destruct (weights_matrix_nonsingular n) as (_ & _ & Huniq).
    apply (Huniq (mk1 n u) t
             (mk1 n (fun i => spec_b quad (notebook_F x) (i + 1)))).
    + split; [reflexivity|]. exact Hu.
    + split; [exact Hlt|]. exact Hsys.
    + exact Hj.
Qed.

Lemma C7_weights_solve_system_witness :
  exists w, designFilter (midpoint_quad 2) ideal_solve 2 1 = Ok w /\
    len w = (1 + 1)%nat /\
    (forall i, (i < 1)%nat ->
       sum_n (fun j => spec_A i j * at1 w (1 + j)) 1
       = spec_b (midpoint_quad 2) (notebook_F 2) (i + 1)) /\
    (forall t : nat -> R,
       (forall i, (i < 1)%nat ->
          sum_n (fun j => spec_A i j * t j) 1
          = spec_b (midpoint_quad 2) (notebook_F 2) (i + 1)) ->
       forall j, (j < 1)%nat -> t j = at1 w (1 + j)) /\
    at1 w 0 = 1 - 2 * sum_n (fun j => at1 w (1 + j)) 1.
Proof.
  apply (C7_weights_solve_system (midpoint_quad 2) ideal_solve 2 1).
  - exact ideal_solve_contract.
  - lra.
Defined.

(** C8: for every [x > 1] the notebook binds [F] to an interpolant that
    passes through [(0,1)], [(1/x,1)], [(pi/x,0)], [(pi,0)], is piecewise
    cubic (constant 1, then the cubic transition, then constant 0), never
    increases, and stays between 0 and 1. *)
Theorem C8_target_response (x : R) :
  1 < x ->
  exists F, bind_x_F x = Ok (mk_globals x F) /\
    F 0 = 1 /\ F (1 / x) = 1 /\ F (PI / x) = 0 /\ F PI = 0 /\
    (forall k1 k2, k1 <= k2 -> F k2 <= F k1) /\
    (forall k, 0 <= F k <= 1) /\
    (forall k, F k = target x k).
Proof.
  intros Hx. exists (notebook_F x).
  split; [now apply bind_x_F_ok|].
  destruct (target_knots x Hx) as (E0 & E1 & E2 & E3).
  rewrite !notebook_F_target by exact Hx.
  repeat split; try assumption.
  - intros k1 k2 H12. rewrite !notebook_F_target by exact Hx.
    now apply target_decr.
  - rewrite notebook_F_target by exact Hx. now apply target_bounds.
  - rewrite notebook_F_target by exact Hx. now apply target_bounds.
  - intros k. now apply notebook_F_target.
Qed.

Lemma C8_target_response_witness :
  exists F, bind_x_F 2 = Ok (mk_globals 2 F) /\
    F 0 = 1 /\ F (1 / 2) = 1 /\ F (PI / 2) = 0 /\ F PI = 0 /\
    (forall k1 k2, k1 <= k2 -> F k2 <= F k1) /\
    (forall k, 0 <= F k <= 1) /\
    (forall k, F k = target 2 k).
Proof. apply (C8_target_response 2). lra. Defined.

(** [getWeights] reads the module-level [F]: in two states of the notebook
    with the same [x = 8] (one where [F] was rebuilt, one where [F] still
    is the interpolant for [x = 2]), [getWeights(1)] returns different
    weights. *)
Lemma getWeights_reads_global_F :
  g_x stale_globals = g_x fresh_globals /\
  getWeights (midpoint_quad 2) ideal_solve stale_globals 1 <>
  getWeights (midpoint_quad 2) ideal_solve fresh_globals 1.
Proof.
  split; [reflexivity|]. intros E.
  destruct (getWeights_eval (midpoint_quad 2) ideal_solve ideal_solve_contract
              stale_globals 1) as (w1 & t1 & Hw1 & _ & [_ Hs1] & Ht1 & _).
  destruct (getWeights_eval (midpoint_quad 2) ideal_solve ideal_solve_contract
              fresh_globals 1) as (w2 & t2 & Hw2 & _ & [_ Hs2] & Ht2 & _).
  rewrite Hw1, Hw2 in E. injection E as E.
  cbn [dim0 dim1 weights_matrix smap2 eye at1 g_F stale_globals fresh_globals]
    in Hs1, Hs2.
  specialize (Hs1 0%nat ltac:(lia)). specialize (Hs2 0%nat ltac:(lia)).
  specialize (Ht1 0%nat ltac:(lia)). specialize (Ht2 0%nat ltac:(lia)).
  cbn [sum_n Nat.add] in Hs1, Hs2.
  rewrite <- Ht1 in Hs1. rewrite <- Ht2 in Hs2. rewrite E in Hs1.
  rewrite Hs1 in Hs2. rewrite !spec_b_midpoint in Hs2.
  destruct stale_fresh_samples as (Hpos & Ez1 & Ez2 & Ez3).
  rewrite Ez1, Ez2, Ez3 in Hs2.
  pose proof cos_PI4_lt_1 as Hcos. pose proof PI_RGT_0 as Hpi.
  assert (Hprod : notebook_F 2 (PI / 4) * (cos (PI / 4) - 1) = 0) by nra.
  apply Rmult_integral in Hprod. destruct Hprod; lra.
Qed.

End FilterClaims.

(** ** Further properties of [Laplacian2D] *)

Section LaplacianMore.

(** With a [dx] of length 1 the accumulated array is the flux form for the
    spacing [dx[0]] in every column. *)
Lemma Laplacian2D_eval_scalar_dx field landMask dx dy :
  dim0 landMask = dim0 field -> dim1 landMask = dim1 field ->
  (1 <= dim0 field)%nat -> (1 <= dim1 field)%nat -> dy <> 0 ->
  len dx = 1%nat ->
  exists out, Laplacian2D field landMask dx dy = Ok out /\
    dim0 out = dim0 field /\ dim1 out = dim1 field /\
    forall i j, (i < dim0 field)%nat -> (j < dim1 field)%nat ->
      at2 out i j =
      flux_form field landMask (replicate1 dx (dim1 field)) dy i j
      * at2 landMask i j.
Proof.
  intros H0 H1 HNx HNy Hdy Hdx.
  destruct field as [Nx Ny f], landMask as [m0 m1 m], dx as [L h].
  cbn [dim0 dim1 len at2 at1] in *. subst m0 m1 L.
  destruct Nx as [|nx]; [lia|]. destruct Ny as [|ny]; [lia|].
  unfold Laplacian2D. np_unfold.
  destruct (Req_dec_T (dy ^ 2) 0) as [E|_]; [exfalso; apply Hdy; nra|].
  cbn [dim0 dim1 at2 at1 len].
  do 46 np_step.
  eexists. split; [reflexivity|]. cbn [dim0 dim1 at2].
  split; [reflexivity|]. split; [reflexivity|].
  intros i j Hi Hj.
  unfold bidx; rewrite ?Nat.eqb_refl.
  replace (if (1 =? S nx)%nat then i else 0%nat) with 0%nat
    by (destruct (Nat.eqb_spec 1 (S nx)); lia).
  replace (if (1 =? S ny)%nat then j else 0%nat) with 0%nat
    by (destruct (Nat.eqb_spec 1 (S ny)); lia).
  unfold flux_form, axis_term, spec_fluxRight, spec_fluxLeft, replicate1.
  cbn [dim0 dim1 at2 at1].
  rewrite !mod_next, !mod_prev by assumption.
  rewrite !Nat.sub_0_r.
  destruct (Nat.eqb_spec j ny) as [Ejn|Ejn];
    destruct (Nat.eqb_spec j 0) as [Ej0|Ej0];
    destruct (Nat.eqb_spec i nx) as [Ein|Ein];
    destruct (Nat.eqb_spec i 0) as [Ei0|Ei0];
    repeat match goal with
    | |- context [(?a <=? ?b)%nat] => destruct (Nat.leb_spec a b); try lia
    | |- context [(?a <? ?b)%nat] => destruct (Nat.ltb_spec a b); try lia
    end;
    cbn [andb];
    try replace (S (j - 1)) with j by lia;
    try replace (S (i - 1)) with i by lia;
    subst; unfold Rdiv; ring.
Qed.

(** The shape of the array a returning call returns. *)
Lemma Laplacian2D_ok_shape field landMask dx dy out :
  Laplacian2D field landMask dx dy = Ok out ->
  dim0 out = dim0 field /\
  dim1 out = if (dim1 field =? 1)%nat then len dx else dim1 field.
Proof.
  intros H.
  pose proof (Laplacian2D_ok_accepted _ _ _ _ _ H)
    as (A0 & A1 & ANx & ANy & _ & Adx).
  unfold Laplacian2D in H.
  apply bind_ok in H as (OUT & HOUT & H).
  apply bop2_inv in H as [Hr0 Hr1].
  unfold Laplacian2D_OUT in HOUT.
  repeat inv_bind HOUT.
  apply bop2_inv in HOUT as [Ho0 Ho1].
  destruct field as [Nx Ny f], landMask as [m0 m1 m], dx as [L h].
  cbn [dim0 dim1 len smap2 smap1 zeros cols rows] in *.
  subst m0 m1.
  repeat match goal with
  | H : is_ok _ |- _ => clear H
  | H : fits _ _ = true |- _ => clear H
  | H : bdim _ _ = Ok (len _) |- _ => clear H
  end.
  shape_subst.
  repeat match goal with
  | H : bdim 1 _ = Ok _ |- _ =>
      rewrite bdim_1_l in H; injection H as H; symmetry in H
  end.
  shape_subst.
  destruct (Nat.eqb_spec Ny 1) as [->|Hny].
  - repeat match goal with
    | H : bdim _ 1 = Ok _ |- _ =>
        rewrite bdim_1_r in H; injection H as H; symmetry in H
    | H : bdim 1 _ = Ok _ |- _ =>
        rewrite bdim_1_l in H; injection H as H; symmetry in H
    | H : dim0 ?a = _ |- _ => is_var a; rewrite H in *; clear H
    | H : dim1 ?a = _ |- _ => is_var a; rewrite H in *; clear H
    end.
    split; reflexivity.
  - assert (E : bdim L Ny = Ok Ny).
    { destruct Adx as [->|[->|E]]; [apply bdim_same|apply bdim_1_l|lia]. }
    repeat match goal with
    | H : bdim L Ny = Ok _ |- _ =>
        rewrite E in H; injection H as H; symmetry in H
    end.
    shape_subst. split; reflexivity.
Qed.

End LaplacianMore.

(** ** Algebra of the flux form *)

Section FluxAlgebra.

Lemma wrap_next_prev (n j : nat) :
  (j < n)%nat -> wrap_next n (wrap_prev n j) = j.
Proof.
  intros Hj. destruct n as [|n]; [lia|].
  rewrite mod_prev by assumption.
  destruct (Nat.eqb_spec j 0) as [->|Hne].
  - rewrite mod_next by lia. now rewrite Nat.eqb_refl.
  - rewrite mod_next by lia.
    destruct (Nat.eqb_spec (j - 1) n); lia.
Qed.

(** Summed over a periodic axis, the left fluxes are the right fluxes read
    with the mask of the cell itself. *)
Lemma axis_flux_sum (nl f : nat -> R) (n : nat) :
  sum_n (fun j => spec_fluxRight nl f n j - spec_fluxLeft nl f n j) n =
  sum_n (fun j => (nl (wrap_next n j) - nl j) * face_diff f n j) n.
Proof.
  rewrite sum_n_minus.
  rewrite (sum_n_ext (fun j => spec_fluxLeft nl f n j)
             (fun j => (fun k => nl k * face_diff f n k) (wrap_prev n j))).
  - rewrite (sum_wrap_prev (fun k => nl k * face_diff f n k)).
    rewrite <- sum_n_minus. apply sum_n_ext. intros j Hj.
    unfold spec_fluxRight, face_diff. ring.
  - intros j Hj. unfold spec_fluxLeft, face_diff. cbv beta.
    now rewrite wrap_next_prev.
Qed.

Lemma sum_n_opp (f : nat -> R) (n : nat) :
  sum_n (fun i => - f i) n = - sum_n f n.
Proof. induction n as [|n IH]; cbn; [ring|]. rewrite IH. ring. Qed.

(** With no land, the field times its axis term sums to minus the squared
    face differences. *)
Lemma axis_energy (nl f : nat -> R) (n : nat) :
  (forall j, (j < n)%nat -> nl j = 1) ->
  sum_n (fun j => f j * (spec_fluxRight nl f n j - spec_fluxLeft nl f n j)) n
  = - sum_n (fun j => face_diff f n j ^ 2) n.
Proof.
  intros Hnl.
  rewrite (sum_n_ext _ (fun j =>
      f j * face_diff f n j
      - (fun k => f (wrap_next n k) * face_diff f n k) (wrap_prev n j))).
  - rewrite sum_n_minus.
    rewrite (sum_wrap_prev (fun k => f (wrap_next n k) * face_diff f n k)).
    rewrite <- sum_n_minus, <- sum_n_opp.
    apply sum_n_ext. intros j Hj. unfold face_diff. ring.
  - intros j Hj. unfold spec_fluxRight, spec_fluxLeft, face_diff. cbv beta.
    rewrite wrap_next_prev by assumption.
    rewrite (Hnl (wrap_next n j)) by (apply wrap_next_lt; lia).
    rewrite (Hnl (wrap_prev n j)) by (apply wrap_prev_lt; lia).
    ring.
Qed.

Lemma sum_n_nonneg (f : nat -> R) (n : nat) :
  (forall i, (i < n)%nat -> 0 <= f i) -> 0 <= sum_n f n.
Proof.
  induction n as [|n IH]; intros H; cbn; [lra|].
  assert (0 <= sum_n f n) by (apply IH; intros; apply H; lia).
  assert (0 <= f n) by (apply H; lia). lra.
Qed.

(** The flux form is linear in the field. *)
Lemma flux_form_linear f g h landMask dx dy (a : R) i j :
  dim0 g = dim0 f -> dim1 g = dim1 f -> dim0 h = dim0 f -> dim1 h = dim1 f ->
  (forall p q, (p < dim0 f)%nat -> (q < dim1 f)%nat ->
     at2 h p q = a * at2 f p q + at2 g p q) ->
  (i < dim0 f)%nat -> (j < dim1 f)%nat ->
  flux_form h landMask dx dy i j =
  a * flux_form f landMask dx dy i j + flux_form g landMask dx dy i j.
Proof.
  intros Hg0 Hg1 Hh0 Hh1 Hh Hi Hj.
  unfold flux_form, axis_term, spec_fluxRight, spec_fluxLeft.
  rewrite Hg0, Hg1, Hh0, Hh1.
  assert (Hjn : (wrap_next (dim1 f) j < dim1 f)%nat)
    by (apply wrap_next_lt; lia).
  assert (Hjp : (wrap_prev (dim1 f) j < dim1 f)%nat)
    by (apply wrap_prev_lt; lia).
  assert (Hin : (wrap_next (dim0 f) i < dim0 f)%nat)
    by (apply wrap_next_lt; lia).
  assert (Hip : (wrap_prev (dim0 f) i < dim0 f)%nat)
    by (apply wrap_prev_lt; lia).
  rewrite !Hh by assumption. unfold Rdiv. ring.
Qed.

(** The flux form of a constant field vanishes. *)
Lemma flux_form_constant f landMask dx dy (c : R) i j :
  (forall p q, (p < dim0 f)%nat -> (q < dim1 f)%nat -> at2 f p q = c) ->
  (i < dim0 f)%nat -> (j < dim1 f)%nat ->
  flux_form f landMask dx dy i j = 0.
Proof.
  intros Hc Hi Hj.
  unfold flux_form, axis_term, spec_fluxRight, spec_fluxLeft.
  assert (Hjn : (wrap_next (dim1 f) j < dim1 f)%nat)
    by (apply wrap_next_lt; lia).
  assert (Hjp : (wrap_prev (dim1 f) j < dim1 f)%nat)
    by (apply wrap_prev_lt; lia).
  assert (Hin : (wrap_next (dim0 f) i < dim0 f)%nat)
    by (apply wrap_next_lt; lia).
  assert (Hip : (wrap_prev (dim0 f) i < dim0 f)%nat)
    by (apply wrap_prev_lt; lia).
  rewrite !Hc by assumption. unfold Rdiv. ring.
Qed.

(** A flux towards a land cell does not read the field there. *)
Lemma masked_flux (mk u v u' v' : R) :
  mk = 1 \/ u = u' -> v = v' ->
  (1 - mk) * (u - v) = (1 - mk) * (u' - v').
Proof. intros [->| ->] ->; ring. Qed.

Lemma masked_flux_back (mk u v u' v' : R) :
  mk = 1 \/ u = u' -> v = v' ->
  (1 - mk) * (v - u) = (1 - mk) * (v' - u').
Proof. intros [->| ->] ->; ring. Qed.

Lemma flux_form_ignores_land f f' landMask dx dy i j :
  dim0 f' = dim0 f -> dim1 f' = dim1 f ->
  (forall p q, (p < dim0 f)%nat -> (q < dim1 f)%nat ->
     at2 landMask p q = 1 \/ at2 f p q = at2 f' p q) ->
  at2 f i j = at2 f' i j ->
  (i < dim0 f)%nat -> (j < dim1 f)%nat ->
  flux_form f landMask dx dy i j = flux_form f' landMask dx dy i j.
Proof.
  intros H0 H1 Hsea Hij Hi Hj.
  unfold flux_form, axis_term, spec_fluxRight, spec_fluxLeft.
  rewrite H0, H1.
  assert (Hjn : (wrap_next (dim1 f) j < dim1 f)%nat)
    by (apply wrap_next_lt; lia).
  assert (Hjp : (wrap_prev (dim1 f) j < dim1 f)%nat)
    by (apply wrap_prev_lt; lia).
  assert (Hin : (wrap_next (dim0 f) i < dim0 f)%nat)
    by (apply wrap_next_lt; lia).
  assert (Hip : (wrap_prev (dim0 f) i < dim0 f)%nat)
    by (apply wrap_prev_lt; lia).
  rewrite (masked_flux _ _ _ _ _ (Hsea i _ Hi Hjn) Hij).
  rewrite (masked_flux_back _ _ _ _ _ (Hsea i _ Hi Hjp) Hij).
  rewrite (masked_flux _ _ _ _ _ (Hsea _ j Hin Hj) Hij).
  rewrite (masked_flux_back _ _ _ _ _ (Hsea _ j Hip Hj) Hij).
  reflexivity.
Qed.

(** [np.linspace] away from the degenerate case. *)
Lemma linspace_at (a b : R) (num i : nat) :
  (2 <= num)%nat -> (i < num)%nat ->
  at1 (linspace a b num) i = a + INR i * (b - a) / INR (num - 1).
Proof.
  intros Hn Hi. unfold linspace. cbn [at1].
  assert (Hd : INR (num - 1) <> 0) by (apply not_0_INR; lia).
  destruct (Nat.ltb_spec 0 (num - 1)); [|lia].
  destruct (Nat.eqb_spec i (num - 1)) as [->|Hne]; field; exact Hd.
Qed.

Lemma linspace_mono (a b : R) (num i k : nat) :
  a <= b -> (2 <= num)%nat -> (i <= k)%nat -> (k < num)%nat ->
  at1 (linspace a b num) i <= at1 (linspace a b num) k.
Proof.
  intros Hab Hn Hik Hk. rewrite !linspace_at by lia.
  assert (Hd : 0 < INR (num - 1)) by (apply lt_0_INR; lia).
  assert (Hle : INR i <= INR k) by (apply le_INR; exact Hik).
  unfold Rdiv. apply Rplus_le_compat_l. apply Rmult_le_compat_r.
  - left. now apply Rinv_0_lt_compat.
  - apply Rmult_le_compat_r; lra.
Qed.

Lemma linspace_ends (a b : R) (num : nat) :
  (2 <= num)%nat ->
  at1 (linspace a b num) 0 = a /\ at1 (linspace a b num) (num - 1) = b.
Proof.
  intros Hn. rewrite !linspace_at by lia.
  assert (Hd : INR (num - 1) <> 0) by (apply not_0_INR; lia).
  split; [cbn [INR]|]; field; exact Hd.
Qed.

Lemma linspace_bounds (a b : R) (num i : nat) :
  a <= b -> (2 <= num)%nat -> (i < num)%nat ->
  a <= at1 (linspace a b num) i <= b.
Proof.
  intros Hab Hn Hi. destruct (linspace_ends a b num Hn) as [E0 E1].
  split.
  - rewrite <- E0 at 1. apply linspace_mono; try assumption; lia.
  - rewrite <- E1 at 2. apply linspace_mono; try assumption; lia.
Qed.

Lemma energy_2d (A B P Q : nat -> nat -> R) (dy : R) (dx : nat -> R)
  (Nx Ny : nat) :
  (forall i, (i < Nx)%nat ->
     sum_n (A i) Ny = - sum_n (P i) Ny) ->
  (forall j, (j < Ny)%nat ->
     sum_n (fun i => B i j) Nx = - sum_n (fun i => Q i j) Nx) ->
  sum_n (fun i => sum_n (fun j => A i j / dy ^ 2 + B i j / dx j ^ 2) Ny) Nx
  = - sum_n (fun i =>
        sum_n (fun j => P i j / dy ^ 2 + Q i j / dx j ^ 2) Ny) Nx.
Proof.
  intros HA HB.
  rewrite (sum_n_ext _ (fun i =>
      sum_n (fun j => A i j / dy ^ 2) Ny
    + sum_n (fun j => B i j / dx j ^ 2) Ny))
    by (intros; apply sum_n_plus).
  rewrite (sum_n_ext (fun i => sum_n (fun j => P i j / dy ^ 2 + _) Ny)
    (fun i => sum_n (fun j => P i j / dy ^ 2) Ny
            + sum_n (fun j => Q i j / dx j ^ 2) Ny))
    by (intros; apply sum_n_plus).
  rewrite !sum_n_plus, Ropp_plus_distr. f_equal.
  - rewrite <- sum_n_opp. apply sum_n_ext. intros i Hi.
    rewrite !sum_n_div, (HA i Hi). unfold Rdiv. ring.
  - rewrite (sum_n_swap (fun i j => B i j / dx j ^ 2)).
    rewrite (sum_n_swap (fun i j => Q i j / dx j ^ 2)).
    rewrite <- sum_n_opp. apply sum_n_ext. intros j Hj.
    rewrite !sum_n_div, (HB j Hj). unfold Rdiv. ring.
Qed.

Lemma sq_pos (r : R) : r <> 0 -> 0 < r ^ 2.
Proof. intros H. destruct (Rdichotomy r 0 H); nra. Qed.

End FluxAlgebra.

(** ** Further results on [Laplacian2D] and on the cell that calls it *)

Section LaplacianExtras.

(** X1: on well-shaped arguments with no zero entry in [dx], the value
    [Laplacian2D] returns at cell
    [(i, j)] is the flux form at that cell times [landMask[i][j]]: the full
    flux form on a land cell (mask 1), zero on open water (mask 0). *)
Theorem X1_returned_array field landMask dx dy :
  well_shaped field landMask dx dy ->
  (forall j, (j < dim1 field)%nat -> at1 dx j <> 0) ->
  exists out, Laplacian2D field landMask dx dy = Ok out /\
    dim0 out = dim0 field /\ dim1 out = dim1 field /\
    forall i j, (i < dim0 field)%nat -> (j < dim1 field)%nat ->
      at2 out i j = flux_form field landMask dx dy i j * at2 landMask i j /\
      (at2 landMask i j = 1 ->
       at2 out i j = flux_form field landMask dx dy i j).
Proof.
  intros Hws _.
  destruct (Laplacian2D_eval _ _ _ _ Hws) as (out & Hout & Hd0 & Hd1 & Hat).
  exists out. split; [exact Hout|]. split; [exact Hd0|]. split; [exact Hd1|].
  intros i j Hi Hj. rewrite Hat by assumption. split; [reflexivity|].
  intros ->. ring.
Qed.

Lemma X1_returned_array_witness :
  exists out, Laplacian2D spike land_centre unit_dx 1 = Ok out /\
    dim0 out = dim0 spike /\ dim1 out = dim1 spike /\
    forall i j, (i < dim0 spike)%nat -> (j < dim1 spike)%nat ->
      at2 out i j = flux_form spike land_centre unit_dx 1 i j
                    * at2 land_centre i j /\
      (at2 land_centre i j = 1 ->
       at2 out i j = flux_form spike land_centre unit_dx 1 i j).
Proof.
  apply (X1_returned_array spike land_centre unit_dx 1).
  - unfold well_shaped. cbn. repeat split; try lia. lra.
  - exact unit_dx_nonzero.
Defined.

(** X2: every call that numpy carries through returns an array with the
    rows of [field]; it has the columns of [field] too, except on a grid
    with a single column, where it has as many columns as [dx] has
    entries. *)
Theorem X2_output_shape field landMask dx dy :
  accepted field landMask dx dy ->
  exists out, Laplacian2D field landMask dx dy = Ok out /\
    dim0 out = dim0 field /\
    dim1 out = if (dim1 field =? 1)%nat then len dx else dim1 field.
Proof.
  intros Hacc. destruct (Laplacian2D_accepted_ok _ _ _ _ Hacc) as [out Hout].
  exists out. split; [exact Hout|]. exact (Laplacian2D_ok_shape _ _ _ _ _ Hout).
Qed.

Lemma X2_output_shape_witness :
  exists out,
    Laplacian2D (of_rows 2 1 [[1]; [2]]) (zeros 2 1) (of_list [1; 1; 1]) 1
    = Ok out /\
    dim0 out = 2%nat /\ dim1 out = 3%nat.
Proof.
  apply (X2_output_shape (of_rows 2 1 [[1]; [2]]) (zeros 2 1)
           (of_list [1; 1; 1]) 1).
  unfold accepted. cbn. repeat split; try lia; lra.
Defined.

(** X3: a [dx] of length 1 is used as the spacing of every column: the
    call returns what it returns for the array of [Ny] copies of
    [dx[0]]. *)
Theorem X3_scalar_dx_is_replicated field landMask dx dy :
  dim0 landMask = dim0 field -> dim1 landMask = dim1 field ->
  (1 <= dim0 field)%nat -> (1 <= dim1 field)%nat -> dy <> 0 ->
  len dx = 1%nat ->
  exists out out',
    Laplacian2D field landMask dx dy = Ok out /\
    Laplacian2D field landMask (replicate1 dx (dim1 field)) dy = Ok out' /\
    same2 out out'.
Proof.
  intros H0 H1 HNx HNy Hdy Hdx.
  destruct (Laplacian2D_eval_scalar_dx _ _ _ _ H0 H1 HNx HNy Hdy Hdx)
    as (out & Hout & Hd0 & Hd1 & Hat).
  destruct (Laplacian2D_eval field landMask (replicate1 dx (dim1 field)) dy)
    as (out' & Hout' & Hd0' & Hd1' & Hat').
  { unfold well_shaped. cbn [replicate1 len]. tauto. }
  exists out, out'. split; [exact Hout|]. split; [exact Hout'|].
  split; [congruence|]. split; [congruence|].
  intros i j Hi Hj. rewrite Hd0 in Hi. rewrite Hd1 in Hj.
  now rewrite Hat, Hat'.
Qed.

Lemma X3_scalar_dx_is_replicated_witness :
  exists out out',
    Laplacian2D spike no_land (of_list [2]) 1 = Ok out /\
    Laplacian2D spike no_land (replicate1 (of_list [2]) (dim1 spike)) 1
    = Ok out' /\
    same2 out out'.
Proof.
  apply (X3_scalar_dx_is_replicated spike no_land (of_list [2]) 1);
    cbn; try lia; try reflexivity; lra.
Defined.

(** X4: with no zero entry in [dx], a constant field has no Laplacian,
    whatever the mask: the array
    accumulated before the [return] statement and the returned array are
    zero at every cell. *)
Theorem X4_constant_field field landMask dx dy (c : R) :
  well_shaped field landMask dx dy ->
  (forall j, (j < dim1 field)%nat -> at1 dx j <> 0) ->
  (forall i j, (i < dim0 field)%nat -> (j < dim1 field)%nat ->
     at2 field i j = c) ->
  exists OUT out,
    Laplacian2D_OUT field landMask dx dy = Ok OUT /\
    Laplacian2D field landMask dx dy = Ok out /\
    forall i j, (i < dim0 field)%nat -> (j < dim1 field)%nat ->
      at2 OUT i j = 0 /\ at2 out i j = 0.
Proof.
  intros Hws _ Hc.
  destruct (Laplacian2D_OUT_eval _ _ _ _ Hws) as (OUT & HOUT & _ & _ & HatO).
  destruct (Laplacian2D_eval _ _ _ _ Hws) as (out & Hout & _ & _ & Hat).
  exists OUT, out. split; [exact HOUT|]. split; [exact Hout|].
  intros i j Hi Hj. rewrite HatO, Hat by assumption.
  rewrite (flux_form_constant field landMask dx dy c) by assumption.
  split; ring.
Qed.

Lemma X4_constant_field_witness :
  exists OUT out,
    Laplacian2D_OUT (mk2 3 3 (fun _ _ => 7)) land_centre unit_dx 1 = Ok OUT /\
    Laplacian2D (mk2 3 3 (fun _ _ => 7)) land_centre unit_dx 1 = Ok out /\
    forall i j, (i < 3)%nat -> (j < 3)%nat ->
      at2 OUT i j = 0 /\ at2 out i j = 0.
Proof.
  apply (X4_constant_field (mk2 3 3 (fun _ _ => 7)) land_centre unit_dx 1 7).
  - unfold well_shaped. cbn. repeat split; try lia. lra.
  - exact unit_dx_nonzero.
  - reflexivity.
Defined.

(** X5: with no zero entry in [dx], [Laplacian2D] is linear in the field:
    for fields [f], [g] and
    [h = a f + g] on the same grid, with the same mask and spacings, the
    accumulated and the returned arrays of [h] are [a] times those of [f]
    plus those of [g]. *)
Theorem X5_linear_in_field f g h landMask dx dy (a : R) :
  well_shaped f landMask dx dy ->
  (forall j, (j < dim1 f)%nat -> at1 dx j <> 0) ->
  dim0 g = dim0 f -> dim1 g = dim1 f -> dim0 h = dim0 f -> dim1 h = dim1 f ->
  (forall i j, (i < dim0 f)%nat -> (j < dim1 f)%nat ->
     at2 h i j = a * at2 f i j + at2 g i j) ->
  exists Of Og Oh rf rg rh,
    Laplacian2D_OUT f landMask dx dy = Ok Of /\
    Laplacian2D_OUT g landMask dx dy = Ok Og /\
    Laplacian2D_OUT h landMask dx dy = Ok Oh /\
    Laplacian2D f landMask dx dy = Ok rf /\
    Laplacian2D g landMask dx dy = Ok rg /\
    Laplacian2D h landMask dx dy = Ok rh /\
    forall i j, (i < dim0 f)%nat -> (j < dim1 f)%nat ->
      at2 Oh i j = a * at2 Of i j + at2 Og i j /\
      at2 rh i j = a * at2 rf i j + at2 rg i j.
Proof.
  intros Hws _ Hg0 Hg1 Hh0 Hh1 Hh.
  assert (Hwg : well_shaped g landMask dx dy)
    by (unfold well_shaped in *; rewrite Hg0, Hg1; exact Hws).
  assert (Hwh : well_shaped h landMask dx dy)
    by (unfold well_shaped in *; rewrite Hh0, Hh1; exact Hws).
  destruct (Laplacian2D_OUT_eval _ _ _ _ Hws) as (Of & HOf & _ & _ & HatOf).
  destruct (Laplacian2D_OUT_eval _ _ _ _ Hwg) as (Og & HOg & _ & _ & HatOg).
  destruct (Laplacian2D_OUT_eval _ _ _ _ Hwh) as (Oh & HOh & _ & _ & HatOh).
  destruct (Laplacian2D_eval _ _ _ _ Hws) as (rf & Hof & _ & _ & Hatf).
  destruct (Laplacian2D_eval _ _ _ _ Hwg) as (rg & Hog & _ & _ & Hatg).
  destruct (Laplacian2D_eval _ _ _ _ Hwh) as (rh & Hoh & _ & _ & Hath).
  exists Of, Og, Oh, rf, rg, rh. repeat (split; [assumption|]).
  intros i j Hi Hj.
  rewrite HatOf, Hatf by assumption.
  rewrite HatOg, Hatg by (rewrite ?Hg0, ?Hg1; assumption).
  rewrite HatOh, Hath by (rewrite ?Hh0, ?Hh1; assumption).
  rewrite (flux_form_linear f g h landMask dx dy a) by assumption.
  split; ring.
Qed.

Lemma X5_linear_in_field_witness :
  exists Of Og Oh rf rg rh,
    Laplacian2D_OUT spike land_centre unit_dx 1 = Ok Of /\
    Laplacian2D_OUT no_land land_centre unit_dx 1 = Ok Og /\
    Laplacian2D_OUT (smap2 (fun v => 3 * v) spike) land_centre unit_dx 1
    = Ok Oh /\
    Laplacian2D spike land_centre unit_dx 1 = Ok rf /\
    Laplacian2D no_land land_centre unit_dx 1 = Ok rg /\
    Laplacian2D (smap2 (fun v => 3 * v) spike) land_centre unit_dx 1
    = Ok rh /\
    forall i j, (i < dim0 spike)%nat -> (j < dim1 spike)%nat ->
      at2 Oh i j = 3 * at2 Of i j + at2 Og i j /\
      at2 rh i j = 3 * at2 rf i j + at2 rg i j.
Proof.
  apply (X5_linear_in_field spike no_land (smap2 (fun v => 3 * v) spike)
           land_centre unit_dx 1 3); try reflexivity.
  - unfold well_shaped. cbn. repeat split; try lia. lra.
  - exact unit_dx_nonzero.
  - intros i j Hi Hj. cbn in Hi, Hj.
    destruct i as [|[|[|i]]]; [| | |lia];
      (destruct j as [|[|[|j]]]; [| | |lia]); cbn; ring.
Defined.

(** X6: field values stored under land do not reach the other cells: if
    two fields agree at cell [(i, j)] and at every open-water cell, the
    arrays accumulated before the [return] statement agree at [(i, j)]. *)
Theorem X6_land_values_do_not_leak f f' landMask dx dy i j :
  well_shaped f landMask dx dy ->
  dim0 f' = dim0 f -> dim1 f' = dim1 f ->
  (forall p q, (p < dim0 f)%nat -> (q < dim1 f)%nat ->
     at2 landMask p q = 1 \/ at2 f p q = at2 f' p q) ->
  at2 f i j = at2 f' i j ->
  (i < dim0 f)%nat -> (j < dim1 f)%nat ->
  exists OUT OUT',
    Laplacian2D_OUT f landMask dx dy = Ok OUT /\
    Laplacian2D_OUT f' landMask dx dy = Ok OUT' /\
    at2 OUT i j = at2 OUT' i j.
Proof.
  intros Hws H0 H1 Hsea Hij Hi Hj.
  assert (Hws' : well_shaped f' landMask dx dy)
    by (unfold well_shaped in *; rewrite H0, H1; exact Hws).
  destruct (Laplacian2D_OUT_eval _ _ _ _ Hws) as (OUT & HOUT & _ & _ & Hat).
  destruct (Laplacian2D_OUT_eval _ _ _ _ Hws') as (OUT' & HOUT' & _ & _ & Hat').
  exists OUT, OUT'. split; [exact HOUT|]. split; [exact HOUT'|].
  rewrite Hat by assumption.
  rewrite Hat' by (rewrite ?H0, ?H1; assumption).
  now apply flux_form_ignores_land.
Qed.

Lemma X6_land_values_do_not_leak_witness :
  exists OUT OUT',
    Laplacian2D_OUT no_land land_centre unit_dx 1 = Ok OUT /\
    Laplacian2D_OUT spike land_centre unit_dx 1 = Ok OUT' /\
    at2 OUT 0 1 = at2 OUT' 0 1.
Proof.
  apply (X6_land_values_do_not_leak no_land spike land_centre unit_dx 1 0 1);
    try reflexivity; try (cbn; lia).
  - unfold well_shaped. cbn. repeat split; try lia. lra.
  - intros p q Hp Hq. cbn in Hp, Hq.
    destruct p as [|[|[|p]]]; [| | |lia];
      (destruct q as [|[|[|q]]]; [| | |lia]); cbn; auto.
Defined.

End LaplacianExtras.

Section LaplacianExtras2.

(** X7: with no zero entry in [dx], the sum over all cells of the array
    accumulated before the [return] statement is the sum, over the faces between neighbouring cells, of the
    jump of [notLand] across the face times the jump of [field] across it,
    over the squared spacing.  (It vanishes when [notLand] does not change
    across any face where the field changes; on the spike grid whose centre
    cell is land it is [-4].) *)
Theorem X7_domain_sum field landMask dx dy :
  well_shaped field landMask dx dy ->
  (forall j, (j < dim1 field)%nat -> at1 dx j <> 0) ->
  exists OUT, Laplacian2D_OUT field landMask dx dy = Ok OUT /\
    let notLand := fun a b => 1 - at2 landMask a b in
    let Nx := dim0 field in
    let Ny := dim1 field in
    sum2 OUT =
    sum_n (fun i => sum_n (fun j =>
        (notLand i (wrap_next Ny j) - notLand i j)
        * (at2 field i (wrap_next Ny j) - at2 field i j) / dy ^ 2
      + (notLand (wrap_next Nx i) j - notLand i j)
        * (at2 field (wrap_next Nx i) j - at2 field i j) / at1 dx j ^ 2)
      Ny) Nx.
Proof.
  intros Hws _.
  destruct (Laplacian2D_OUT_eval _ _ _ _ Hws) as (OUT & HOUT & Hd0 & Hd1 & Hat).
  exists OUT. split; [exact HOUT|]. cbv zeta.
  rewrite (sum2_same OUT (flux_form field landMask dx dy))
    by (rewrite Hd0, Hd1; exact Hat).
  rewrite Hd0, Hd1. unfold flux_form.
  set (Nx := dim0 field). set (Ny := dim1 field).
  set (nl := fun a b => 1 - at2 landMask a b).
  rewrite (sum_n_ext _ (fun i =>
      sum_n (fun j => axis_term (nl i) (at2 field i) Ny j dy) Ny
    + sum_n (fun j => axis_term (fun a => nl a j) (fun a => at2 field a j)
                        Nx i (at1 dx j)) Ny))
    by (intros; apply sum_n_plus).
  rewrite sum_n_plus.
  symmetry.
  rewrite (sum_n_ext _ (fun i =>
      sum_n (fun j => (nl i (wrap_next Ny j) - nl i j)
                      * face_diff (at2 field i) Ny j / dy ^ 2) Ny
    + sum_n (fun j => (nl (wrap_next Nx i) j - nl i j)
                      * face_diff (fun a => at2 field a j) Nx i
                      / at1 dx j ^ 2) Ny))
    by (intros; apply sum_n_plus).
  rewrite sum_n_plus. f_equal.
  - apply sum_n_ext. intros i Hi. unfold axis_term.
    rewrite !sum_n_div. f_equal. symmetry. apply axis_flux_sum.
  - rewrite sum_n_swap. rewrite (sum_n_swap (fun i j => axis_term _ _ _ _ _)).
    apply sum_n_ext. intros j Hj. unfold axis_term.
    rewrite !sum_n_div. f_equal. symmetry.
    apply (axis_flux_sum (fun a => nl a j) (fun a => at2 field a j)).
Qed.

Lemma X7_domain_sum_witness :
  exists OUT, Laplacian2D_OUT spike land_centre unit_dx 1 = Ok OUT /\
    sum2 OUT =
    sum_n (fun i => sum_n (fun j =>
        ((1 - at2 land_centre i (wrap_next 3 j)) - (1 - at2 land_centre i j))
        * (at2 spike i (wrap_next 3 j) - at2 spike i j) / 1 ^ 2
      + ((1 - at2 land_centre (wrap_next 3 i) j) - (1 - at2 land_centre i j))
        * (at2 spike (wrap_next 3 i) j - at2 spike i j) / at1 unit_dx j ^ 2)
      3) 3 /\
    sum2 OUT = -4 /\ sum2 OUT <> 0.
Proof.
  destruct (X7_domain_sum spike land_centre unit_dx 1) as (OUT & HOUT & Hsum).
  - unfold well_shaped. cbn. repeat split; try lia. lra.
  - exact unit_dx_nonzero.
  - exists OUT. split; [exact HOUT|]. cbv zeta in Hsum.
    split; [exact Hsum|].
    assert (E : sum2 OUT = -4).
    { rewrite Hsum. unfold wrap_next. cbn. lra. }
    split; [exact E|]. rewrite E. lra.
Defined.

(** X8: with no zero entry in [dx], on a grid with a single row the x
    direction contributes nothing,
    and on a grid with a single column the y direction contributes nothing:
    the accumulated array holds the term of the other axis alone. *)
Theorem X8_single_row_or_column field landMask dx dy :
  well_shaped field landMask dx dy ->
  (forall j, (j < dim1 field)%nat -> at1 dx j <> 0) ->
  exists OUT, Laplacian2D_OUT field landMask dx dy = Ok OUT /\
    (dim0 field = 1%nat ->
     forall j, (j < dim1 field)%nat ->
       at2 OUT 0 j =
       axis_term (fun b => 1 - at2 landMask 0 b) (at2 field 0)
         (dim1 field) j dy) /\
    (dim1 field = 1%nat ->
     forall i, (i < dim0 field)%nat ->
       at2 OUT i 0 =
       axis_term (fun a => 1 - at2 landMask a 0) (fun a => at2 field a 0)
         (dim0 field) i (at1 dx 0)).
Proof.
  intros Hws _.
  destruct (Laplacian2D_OUT_eval _ _ _ _ Hws) as (OUT & HOUT & _ & _ & Hat).
  exists OUT. split; [exact HOUT|]. split.
  - intros E j Hj. rewrite Hat by lia. unfold flux_form. rewrite E.
    unfold axis_term at 2. unfold spec_fluxRight, spec_fluxLeft.
    change (wrap_next 1 0) with 0%nat. change (wrap_prev 1 0) with 0%nat.
    unfold Rdiv. ring.
  - intros E i Hi. rewrite Hat by lia. unfold flux_form. rewrite E.
    unfold axis_term at 1. unfold spec_fluxRight, spec_fluxLeft.
    change (wrap_next 1 0) with 0%nat. change (wrap_prev 1 0) with 0%nat.
    unfold Rdiv. ring.
Qed.

Lemma X8_single_row_or_column_witness :
  exists OUT,
    Laplacian2D_OUT (of_rows 1 3 [[1; 2; 4]]) (zeros 1 3) unit_dx 1 = Ok OUT /\
    (1%nat = 1%nat ->
     forall j, (j < 3)%nat ->
       at2 OUT 0 j =
       axis_term (fun b => 1 - at2 (zeros 1 3) 0 b)
         (at2 (of_rows 1 3 [[1; 2; 4]]) 0) 3 j 1) /\
    (3%nat = 1%nat ->
     forall i, (i < 1)%nat ->
       at2 OUT i 0 =
       axis_term (fun a => 1 - at2 (zeros 1 3) a 0)
         (fun a => at2 (of_rows 1 3 [[1; 2; 4]]) a 0) 1 i (at1 unit_dx 0)).
Proof.
  apply (X8_single_row_or_column (of_rows 1 3 [[1; 2; 4]]) (zeros 1 3)
           unit_dx 1).
  - unfold well_shaped. cbn. repeat split; try lia. lra.
  - exact unit_dx_nonzero.
Defined.

(** X9: with no land and non-zero spacings, the field paired with the
    accumulated array is minus a sum of squares: the sum over all cells of
    [field * OUT] equals minus the sum of the squared jumps of the field
    across the faces, over the squared spacing; it is never positive. *)
Theorem X9_negative_semidefinite field landMask dx dy :
  well_shaped field landMask dx dy ->
  (forall i j, (i < dim0 field)%nat -> (j < dim1 field)%nat ->
     at2 landMask i j = 0) ->
  (forall j, (j < dim1 field)%nat -> at1 dx j <> 0) ->
  exists OUT, Laplacian2D_OUT field landMask dx dy = Ok OUT /\
    let Nx := dim0 field in
    let Ny := dim1 field in
    sum_n (fun i => sum_n (fun j => at2 field i j * at2 OUT i j) Ny) Nx
    = - sum_n (fun i => sum_n (fun j =>
          (at2 field i (wrap_next Ny j) - at2 field i j) ^ 2 / dy ^ 2
        + (at2 field (wrap_next Nx i) j - at2 field i j) ^ 2 / at1 dx j ^ 2)
        Ny) Nx /\
    sum_n (fun i => sum_n (fun j => at2 field i j * at2 OUT i j) Ny) Nx <= 0.
Proof.
  intros Hws Hland Hdx.
  destruct (Laplacian2D_OUT_eval _ _ _ _ Hws) as (OUT & HOUT & _ & _ & Hat).
  exists OUT. split; [exact HOUT|]. cbv zeta.
  assert (Hdy : dy <> 0) by (destruct Hws as (_ & _ & _ & _ & _ & H); exact H).
  assert (E :
    sum_n (fun i => sum_n (fun j => at2 field i j * at2 OUT i j)
                      (dim1 field)) (dim0 field)
    = - sum_n (fun i => sum_n (fun j =>
          (at2 field i (wrap_next (dim1 field) j) - at2 field i j) ^ 2
          / dy ^ 2
        + (at2 field (wrap_next (dim0 field) i) j - at2 field i j) ^ 2
          / at1 dx j ^ 2)
        (dim1 field)) (dim0 field)).
  { rewrite <- (energy_2d
      (fun i j => at2 field i j
         * (spec_fluxRight (fun b => 1 - at2 landMask i b) (at2 field i)
              (dim1 field) j
            - spec_fluxLeft (fun b => 1 - at2 landMask i b) (at2 field i)
                (dim1 field) j))
      (fun i j => at2 field i j
         * (spec_fluxRight (fun a => 1 - at2 landMask a j)
              (fun a => at2 field a j) (dim0 field) i
            - spec_fluxLeft (fun a => 1 - at2 landMask a j)
                (fun a => at2 field a j) (dim0 field) i))).
    - apply sum_n_ext. intros i Hi. apply sum_n_ext. intros j Hj.
      rewrite Hat by assumption. unfold flux_form, axis_term, Rdiv. ring.
    - intros i Hi.
      apply (axis_energy (fun b => 1 - at2 landMask i b) (at2 field i)).
      intros j Hj. rewrite Hland by assumption. ring.
    - intros j Hj.
      apply (axis_energy (fun a => 1 - at2 landMask a j)
               (fun a => at2 field a j)).
      intros i Hi. rewrite Hland by assumption. ring. }
  split; [exact E|]. rewrite E.
  apply Ropp_le_cancel. rewrite Ropp_involutive, Ropp_0.
  apply sum_n_nonneg. intros i Hi. apply sum_n_nonneg. intros j Hj.
  assert (0 < dy ^ 2) by (apply sq_pos; exact Hdy).
  assert (0 < at1 dx j ^ 2) by (apply sq_pos; apply Hdx; exact Hj).
  apply Rplus_le_le_0_compat; apply Rmult_le_pos;
    try apply pow2_ge_0; left; now apply Rinv_0_lt_compat.
Qed.

Lemma X9_negative_semidefinite_witness :
  exists OUT, Laplacian2D_OUT spike no_land unit_dx 1 = Ok OUT /\
    let Nx := dim0 spike in
    let Ny := dim1 spike in
    sum_n (fun i => sum_n (fun j => at2 spike i j * at2 OUT i j) Ny) Nx
    = - sum_n (fun i => sum_n (fun j =>
          (at2 spike i (wrap_next Ny j) - at2 spike i j) ^ 2 / 1 ^ 2
        + (at2 spike (wrap_next Nx i) j - at2 spike i j) ^ 2
          / at1 unit_dx j ^ 2)
        Ny) Nx /\
    sum_n (fun i => sum_n (fun j => at2 spike i j * at2 OUT i j) Ny) Nx <= 0.
Proof.
  apply (X9_negative_semidefinite spike no_land unit_dx 1).
  - unfold well_shaped. cbn. repeat split; try lia. lra.
  - intros i j Hi Hj. cbn in Hi, Hj.
    destruct i as [|[|[|i]]]; [| | |lia];
      (destruct j as [|[|[|j]]]; [| | |lia]); reflexivity.
  - intros j Hj. cbn in Hj.
    destruct j as [|[|[|j]]]; [| | |lia]; cbn; lra.
Defined.

(** X10: the demonstration cell always computes the zero array: whatever
    the two random draws are, the call returns an 11 x 21 array whose
    entries are all zero, because its mask is zero everywhere; the spacings
    it passes lie between 1/2 and 1. *)
Theorem X10_demo_cell_is_zero (randint randn : nat -> nat -> R) :
  exists L, demo_cell randint randn = Ok L /\
    dim0 L = 11%nat /\ dim1 L = 21%nat /\
    (forall i j, (i < 11)%nat -> (j < 21)%nat -> at2 L i j = 0) /\
    len demo_dx = 21%nat /\
    (forall j, (j < 21)%nat -> 1 / 2 <= at1 demo_dx j <= 1).
Proof.
  unfold demo_cell.
  destruct (Laplacian2D_eval (mk2 11 21 randn)
              (smap2 (fun v => 0 * v) (mk2 11 21 randint))
              (smap1 (fun v => v / 2) (linspace 1 2 21)) 1)
    as (L & HL & Hd0 & Hd1 & Hat).
  { unfold well_shaped. cbn [dim0 dim1 len smap2 smap1 linspace].
    repeat split; try lia. lra. }
  exists L. split; [exact HL|]. split; [exact Hd0|]. split; [exact Hd1|].
  split; [|split; [reflexivity|]].
  - intros i j Hi Hj. rewrite Hat by assumption. cbn [smap2 at2]. ring.
  - intros j Hj. unfold demo_dx. cbn [smap1 at1].
    pose proof (linspace_bounds 1 2 21 j ltac:(lra) ltac:(lia) Hj). lra.
Qed.

End LaplacianExtras2.

(** ** Further results on the filter designer *)

Section FilterMore.

Lemma target_transition x k :
  1 < x -> 1 / x <= k <= PI / x ->
  target x k = smooth ((k - 1 / x) / (PI / x - 1 / x)).
Proof.
  intros Hx [H1 H2]. destruct (knots_increasing x Hx) as (Ha & Hb & Hc).
  unfold target.
  destruct (Rlt_dec k (1 / x)); [lra|].
  destruct (Rlt_dec k (PI / x)); [reflexivity|].
  assert (k = PI / x) by lra. subst k.
  pose proof PI2_1. unfold smooth. field. split; lra.
Qed.

Lemma smooth_strict s1 s2 : 0 <= s1 -> s1 < s2 -> s2 <= 1 ->
  smooth s2 < smooth s1.
Proof.
  intros H0 H12 H1.
  assert (E : smooth s1 - smooth s2 =
              (s2 - s1) * (s1 * (3 - 2 * s1 - s2) + s2 * (3 - 2 * s2 - s1)))
    by (unfold smooth; ring).
  assert (0 <= s1 * (3 - 2 * s1 - s2)) by (apply Rmult_le_pos; lra).
  assert (0 < s2 * (3 - 2 * s2 - s1)) by (apply Rmult_lt_0_compat; lra).
  assert (0 < (s2 - s1) * (s1 * (3 - 2 * s1 - s2) + s2 * (3 - 2 * s2 - s1)))
    by (apply Rmult_lt_0_compat; lra).
  lra.
Qed.

Lemma ramp_strict x k1 k2 :
  1 < x -> k1 < k2 ->
  (k1 - 1 / x) / (PI / x - 1 / x) < (k2 - 1 / x) / (PI / x - 1 / x).
Proof.
  intros Hx H12. destruct (knots_increasing x Hx) as (Ha & Hb & Hc).
  apply Rmult_lt_compat_r; [|lra].
  apply Rinv_0_lt_compat. lra.
Qed.

Lemma ramp_closed x k :
  1 < x -> 1 / x <= k <= PI / x ->
  0 <= (k - 1 / x) / (PI / x - 1 / x) <= 1.
Proof.
  intros Hx [H1 H2]. destruct (knots_increasing x Hx) as (Ha & Hb & Hc).
  destruct (Rlt_dec k (PI / x)) as [Hlt|Hge].
  - pose proof (ramp_bounds x k Hx H1 Hlt). lra.
  - assert (k = PI / x) by lra. subst k. pose proof PI2_1.
    replace ((PI / x - 1 / x) / (PI / x - 1 / x)) with 1
      by (field; split; lra).
    lra.
Qed.

End FilterMore.

Section FilterExtras.

(** X11: binding [x] and [F] succeeds exactly for [x > 1]: for [x = 0] the
    division [1/x] raises [ZeroDivisionError], for every other [x <= 1] the
    knots are not strictly increasing and the interpolator raises
    [ValueError]; the designer then computes nothing. *)
Theorem X11_bind_needs_x_above_1
  (quad : (R -> R) -> R -> R -> R * R)
  (linalg_solve : arr2 -> arr1 -> result arr1) (x : R) (n : nat) :
  bind_x_F x =
    (if Rlt_dec 1 x then Ok (mk_globals x (notebook_F x))
     else if Req_dec_T x 0 then Raise ZeroDivisionError
     else Raise ValueError) /\
  designFilter quad linalg_solve x n =
    (if Rlt_dec 1 x
     then getWeights quad linalg_solve (mk_globals x (notebook_F x)) n
     else if Req_dec_T x 0 then Raise ZeroDivisionError
     else Raise ValueError).
Proof.
  assert (E : bind_x_F x =
    (if Rlt_dec 1 x then Ok (mk_globals x (notebook_F x))
     else if Req_dec_T x 0 then Raise ZeroDivisionError
     else Raise ValueError)).
  { destruct (Rlt_dec 1 x) as [Hx|Hx]; [now apply bind_x_F_ok|].
    unfold bind_x_F, py_div.
    destruct (Req_dec_T x 0) as [E0|E0]; [reflexivity|]. cbn [bind].
    unfold Pchip.PchipInterpolator.
    cbn [length Nat.ltb Nat.leb Nat.eqb negb Pchip.strictly_increasing].
    pose proof PI2_1 as Hpi.
    destruct (Rlt_dec 0 (1 / x)) as [Ha|Ha]; [|reflexivity].
    destruct (Rlt_dec (1 / x) (PI / x)) as [Hb|Hb]; [|reflexivity].
    destruct (Rlt_dec (PI / x) PI) as [Hc|Hc]; [|reflexivity].
    exfalso.
    assert (Hxpos : 0 < x).
    { destruct (Rlt_dec 0 x) as [|Hneg]; [assumption|].
      assert (x < 0) by lra.
      assert (/ x < 0) by (apply Rinv_lt_0_compat; assumption).
      unfold Rdiv in Ha. lra. }
    apply (Rmult_lt_compat_r x) in Hc; [|exact Hxpos].
    unfold Rdiv in Hc. rewrite Rmult_assoc, Rinv_l in Hc by lra. nra. }
  split; [exact E|].
  unfold designFilter. rewrite E.
  destruct (Rlt_dec 1 x); [reflexivity|].
  destruct (Req_dec_T x 0); reflexivity.
Qed.

(** X12: for [x > 1] the transition of [F] between [1/x] and [pi/x] is
    strictly decreasing and symmetric about its midpoint: [F(k)] and
    [F(1/x + pi/x - k)] add up to 1, so [F] is 1/2 at the midpoint. *)
Theorem X12_transition_shape (x : R) :
  1 < x ->
  (forall k1 k2, 1 / x <= k1 -> k1 < k2 -> k2 <= PI / x ->
     notebook_F x k2 < notebook_F x k1) /\
  (forall k, 1 / x <= k <= PI / x ->
     notebook_F x k + notebook_F x (1 / x + PI / x - k) = 1) /\
  notebook_F x ((1 / x + PI / x) / 2) = 1 / 2.
Proof.
  intros Hx. destruct (knots_increasing x Hx) as (Ha & Hb & Hc).
  assert (Hsym : forall k, 1 / x <= k <= PI / x ->
            notebook_F x k + notebook_F x (1 / x + PI / x - k) = 1).
  { intros k Hk. pose proof PI2_1. rewrite !notebook_F_target by exact Hx.
    rewrite !target_transition by (try exact Hx; lra).
    replace ((1 / x + PI / x - k - 1 / x) / (PI / x - 1 / x))
      with (1 - (k - 1 / x) / (PI / x - 1 / x)) by (field; split; lra).
    unfold smooth. ring. }
  split; [|split; [exact Hsym|]].
  - intros k1 k2 H1 H12 H2. rewrite !notebook_F_target by exact Hx.
    rewrite !target_transition by (try exact Hx; lra).
    pose proof (ramp_closed x k1 Hx ltac:(lra)).
    pose proof (ramp_closed x k2 Hx ltac:(lra)).
    apply smooth_strict; [lra| |lra]. now apply ramp_strict.
  - pose proof (Hsym ((1 / x + PI / x) / 2) ltac:(lra)) as E.
    replace (1 / x + PI / x - (1 / x + PI / x) / 2)
      with ((1 / x + PI / x) / 2) in E by (field; lra).
    lra.
Qed.

Lemma X12_transition_shape_witness :
  (forall k1 k2, 1 / 2 <= k1 -> k1 < k2 -> k2 <= PI / 2 ->
     notebook_F 2 k2 < notebook_F 2 k1) /\
  (forall k, 1 / 2 <= k <= PI / 2 ->
     notebook_F 2 k + notebook_F 2 (1 / 2 + PI / 2 - k) = 1) /\
  notebook_F 2 ((1 / 2 + PI / 2) / 2) = 1 / 2.
Proof. apply (X12_transition_shape 2). lra. Defined.

(** X13: for [x > 1] the plot cell draws 101 samples of [F] that start at
    1, end at 0, never increase from one sample to the next and stay
    between 0 and 1. *)
Theorem X13_plot_cell_samples (x : R) :
  1 < x ->
  exists g, bind_x_F x = Ok g /\
    len (plot_cell g) = 101%nat /\
    at1 (plot_cell g) 0 = 1 /\ at1 (plot_cell g) 100 = 0 /\
    (forall i k, (i <= k)%nat -> (k < 101)%nat ->
       at1 (plot_cell g) k <= at1 (plot_cell g) i) /\
    (forall i, (i < 101)%nat -> 0 <= at1 (plot_cell g) i <= 1).
Proof.
  intros Hx. exists (mk_globals x (notebook_F x)).
  split; [now apply bind_x_F_ok|].
  destruct (target_knots x Hx) as (E0 & _ & _ & E3).
  destruct (linspace_ends 0 PI 101 ltac:(lia)) as [L0 L1].
  pose proof PI_RGT_0 as Hpi.
  unfold plot_cell. cbn [smap1 len at1 g_F linspace].
  split; [reflexivity|].
  change (fun i : nat => _) with (at1 (linspace 0 PI 101)) in *.
  repeat split.
  - cbn [linspace at1 Nat.sub Nat.ltb Nat.leb Nat.eqb].
    rewrite notebook_F_target by exact Hx.
    replace (INR 0 * ((PI - 0) / INR 100) + 0) with 0 by (cbn [INR]; ring).
    exact E0.
  - cbn [linspace at1 Nat.sub Nat.ltb Nat.leb Nat.eqb].
    rewrite notebook_F_target by exact Hx. exact E3.
  - intros i k Hik Hk.
    change (notebook_F x (at1 (linspace 0 PI 101) k)
            <= notebook_F x (at1 (linspace 0 PI 101) i)).
    rewrite !notebook_F_target by exact Hx.
    apply target_decr; [exact Hx|].
    apply linspace_mono; try lia; lra.
  - change (0 <= notebook_F x (at1 (linspace 0 PI 101) i)).
    rewrite notebook_F_target by exact Hx. now apply target_bounds.
  - change (notebook_F x (at1 (linspace 0 PI 101) i) <= 1).
    rewrite notebook_F_target by exact Hx. now apply target_bounds.
Qed.

Lemma X13_plot_cell_samples_witness :
  exists g, bind_x_F 2 = Ok g /\
    len (plot_cell g) = 101%nat /\
    at1 (plot_cell g) 0 = 1 /\ at1 (plot_cell g) 100 = 0 /\
    (forall i k, (i <= k)%nat -> (k < 101)%nat ->
       at1 (plot_cell g) k <= at1 (plot_cell g) i) /\
    (forall i, (i < 101)%nat -> 0 <= at1 (plot_cell g) i <= 1).
Proof. apply (X13_plot_cell_samples 2). lra. Defined.

(** X14: the weights have a closed form: with [b[j]] the quadrature for
    offset [j + 1] and [S] the sum of [b[0..n-1]], the tail is
    [w[1+j] = (b[j] - 2 S / (1 + 2n)) / (2 pi)] and the centre tap is
    [w[0] = 1 - S / (pi (1 + 2n))], for any solver that keeps its
    contract. *)
Theorem X14_weights_closed_form
  (quad : (R -> R) -> R -> R -> R * R)
  (linalg_solve : arr2 -> arr1 -> result arr1) (g : globals) (n : nat) :
  linalg_solve_contract linalg_solve ->
  exists w, getWeights quad linalg_solve g n = Ok w /\
    let b := fun j => spec_b quad (g_F g) (j + 1) in
    let S := sum_n b n in
    (forall j, (j < n)%nat ->
       at1 w (1 + j) = (b j - 2 * S / (1 + 2 * INR n)) / (2 * PI)) /\
    at1 w 0 = 1 - S / (PI * (1 + 2 * INR n)).
Proof.
  intros Hc.
  destruct (getWeights_eval quad linalg_solve Hc g n)
    as (w & t & Hw & Hl & Hsol & Htail & H0).
  exists w. split; [exact Hw|]. cbv zeta.
  set (b := mk1 n (fun i => spec_b quad (g_F g) (i + 1))) in *.
  destruct (weights_matrix_nonsingular n) as (_ & _ & Huniq).
  assert (Ht : forall j, (j < n)%nat ->
            at1 w (1 + j)
            = (at1 b j - 2 * sum_n (at1 b) n / (1 + 2 * INR n)) / (2 * PI)).
  { intros j Hj. rewrite Htail by exact Hj.
    apply (Huniq t (closed_form n b) b Hsol (closed_form_solves n b) j Hj). }
  split; [exact Ht|].
  rewrite H0, (sum_n_ext _ _ n Ht).
  rewrite sum_n_div, sum_n_minus, sum_n_const.
  pose proof (two_n_plus_1_pos n). pose proof PI_RGT_0.
  cbn [b at1]. field. split; lra.
Qed.

Lemma X14_weights_closed_form_witness :
  exists w, getWeights (midpoint_quad 2) ideal_solve fresh_globals 1 = Ok w /\
    let b := fun j => spec_b (midpoint_quad 2) (g_F fresh_globals) (j + 1) in
    let S := sum_n b 1 in
    (forall j, (j < 1)%nat ->
       at1 w (1 + j) = (b j - 2 * S / (1 + 2 * INR 1)) / (2 * PI)) /\
    at1 w 0 = 1 - S / (PI * (1 + 2 * INR 1)).
Proof.
  apply (X14_weights_closed_form (midpoint_quad 2) ideal_solve fresh_globals 1).
  exact ideal_solve_contract.
Defined.

(** X15: with half-width 0 the loop does not run and the system is empty:
    [getWeights(0)] returns the single weight 1, whatever [F] and the
    quadrature routine are. *)
Theorem X15_half_width_zero
  (quad : (R -> R) -> R -> R -> R * R)
  (linalg_solve : arr2 -> arr1 -> result arr1) (g : globals) :
  linalg_solve_contract linalg_solve ->
  exists w, getWeights quad linalg_solve g 0 = Ok w /\
    len w = 1%nat /\ at1 w 0 = 1.
Proof.
  intros Hc.
  destruct (getWeights_eval quad linalg_solve Hc g 0)
    as (w & t & Hw & Hl & _ & _ & H0).
  exists w. split; [exact Hw|]. split; [exact Hl|].
  rewrite H0. cbn [sum_n]. ring.
Qed.

Lemma X15_half_width_zero_witness :
  exists w, getWeights (midpoint_quad 2) ideal_solve stale_globals 0 = Ok w /\
    len w = 1%nat /\ at1 w 0 = 1.
Proof.
  apply (X15_half_width_zero (midpoint_quad 2) ideal_solve stale_globals).
  exact ideal_solve_contract.
Defined.

(** X16: with any solver at all, [getWeights] fails only through the
    solver: there is a right-hand side [b] holding the [n] quadratures such
    that an error of the solver on [(A, b)] is passed on unchanged, a
    returned vector whose length is neither [n] nor 1 makes the assignment
    to [w[1:]] raise [ValueError], and every other outcome of the solver
    lets the call return. *)
Theorem X16_errors_come_from_the_solver
  (quad : (R -> R) -> R -> R -> R * R)
  (linalg_solve : arr2 -> arr1 -> result arr1) (g : globals) (n : nat) :
  exists b, len b = n /\
    (forall i, (i < n)%nat -> at1 b i = spec_b quad (g_F g) (i + 1)) /\
    (forall e, linalg_solve (weights_matrix n) b = Raise e ->
       getWeights quad linalg_solve g n = Raise e) /\
    (forall t, linalg_solve (weights_matrix n) b = Ok t ->
       len t <> n -> len t <> 1%nat ->
       getWeights quad linalg_solve g n = Raise ValueError) /\
    (forall t, linalg_solve (weights_matrix n) b = Ok t ->
       len t = n \/ len t = 1%nat ->
       is_ok (getWeights quad linalg_solve g n)).
Proof.
  destruct (fill_eval quad (g_F g) n 0 (zeros1 (n + 1)))
    as (w1 & Hw1 & Hl1 & Hat1).
  { cbn [len zeros1]. lia. }
  cbn [len zeros1] in Hl1.
  exists (slice1 w1 0 (Z.of_nat n)). split; [|split].
  - unfold slice1. cbn [len]. rewrite Hl1, clamp_0, clamp_of_nat. lia.
  - intros i Hi. unfold slice1. cbn [at1]. rewrite clamp_0, Hat1.
    cbn [Nat.add].
    destruct (Nat.leb_spec 0 i); [|lia].
    destruct (Nat.ltb_spec i n); [|lia]. reflexivity.
  - assert (Hshape : forall t,
        set_slice1_from w1 1 t =
        if fits (len t) n
        then Ok (mk1 (n + 1) (fun j =>
               if ((1 <=? j) && (j <? 1 + n))%nat
               then at1 t (bidx (len t) n (j - 1)) else at1 w1 j))
        else Raise ValueError).
    { intros t. unfold set_slice1_from, set_slice1.
      rewrite Hl1, clamp_of_nat, clamp_1.
      replace (Nat.min (n + 1) (n + 1) - Nat.min 1 (n + 1))%nat with n by lia.
      replace (Nat.min 1 (n + 1)) with 1%nat by lia. reflexivity. }
    unfold getWeights. rewrite Hw1. cbn [bind]. repeat split.
    + intros e He. rewrite He. reflexivity.
    + intros t Ht Hn H1. rewrite Ht. cbn [bind]. rewrite Hshape.
      unfold fits.
      destruct (Nat.eqb_spec (len t) n); [contradiction|].
      destruct (Nat.eqb_spec (len t) 1); [contradiction|]. reflexivity.
    + intros t Ht Hlen. rewrite Ht. cbn [bind]. rewrite Hshape.
      replace (fits (len t) n) with true.
      2:{ symmetry. unfold fits. apply orb_true_iff.
          destruct Hlen as [E|E]; [left|right]; now apply Nat.eqb_eq. }
      cbn [bind]. unfold set1. cbn [len]. rewrite norm_index_0.
      replace (n + 1 =? 0)%nat with false
        by (symmetry; apply Nat.eqb_neq; lia).
      cbn [bind]. eexists. reflexivity.
Qed.

(** X17: for [x > 1] the integrand handed to the quadrature routine is
    never negative, never above 4, and vanishes on the pass band
    [k <= 1/x]. *)
Theorem X17_integrand_bounds (x : R) (i : nat) :
  1 < x ->
  (forall k, 0 <= integrand (notebook_F x) i k <= 4) /\
  (forall k, k <= 1 / x -> integrand (notebook_F x) i k = 0).
Proof.
  intros Hx. split.
  - intros k. unfold integrand. rewrite notebook_F_target by exact Hx.
    pose proof (target_bounds x k Hx) as [B0 B1].
    pose proof (COS_bound (INR (i + 1) * k)) as [C0 C1].
    split; nra.
  - intros k Hk. unfold integrand. rewrite notebook_F_target by exact Hx.
    destruct (Rlt_dec k (1 / x)) as [Hlt|Hge].
    + unfold target. destruct (Rlt_dec k (1 / x)); [ring|contradiction].
    + assert (k = 1 / x) by lra. subst k.
      destruct (target_knots x Hx) as (_ & E1 & _). rewrite E1. ring.
Qed.

Lemma X17_integrand_bounds_witness :
  (forall k, 0 <= integrand (notebook_F 2) 0 k <= 4) /\
  (forall k, k <= 1 / 2 -> integrand (notebook_F 2) 0 k = 0).
Proof. apply (X17_integrand_bounds 2 0). lra. Defined.

End FilterExtras.
